(** * SIMOC agent model: storage and currency-exchange engine

    A shallow embedding of [agent_model/agents/core.py]: the storage
    operations of [StorageAgent], the per-step exchange algorithm of
    [GeneralAgent] and the CO2 correction of [PlantAgent].

    Python numbers are embedded as exact rationals ([Q], compared with
    [==]); the count of co-located instances [amount] is an integer.  A
    float is embedded by its value, and sums and products are those of the
    values; where the code floors a quotient of floats, the quotient is the
    rounded one ([float_div]).
    Physical units carried by [quantities] are dropped: a quantity is its
    magnitude. *)

From Stdlib Require Import QArith Qminmax Qround Qabs Qring Qfield ZArith List Ascii
  String Lia Lqa.
From stdpp Require Import gmap strings list fin_maps.

Open Scope Q_scope.

(** ** Python exceptions *)

Inductive error : Type :=
  | KeyError
  | ValueError
  | IndexError
  | ZeroDivisionError
  | TypeError
  | UnknownCustomFunction.

Inductive result (A : Type) : Type :=
  | Ok (a : A)
  | Raise (e : error).
Arguments Ok {A} a.
Arguments Raise {A} e.

#[global] Instance result_ret : MRet result := fun _ a => Ok a.
#[global] Instance result_bind : MBind result := fun _ _ k r =>
  match r with
  | Ok a => k a
  | Raise e => Raise e
  end.

Definition of_option {A : Type} (e : error) (o : option A) : result A :=
  match o with
  | Some a => Ok a
  | None => Raise e
  end.

(** ** Ordered dictionaries

    A Python [dict] iterated in insertion order is an association list
    with unique keys; assignment to a present key keeps its position. *)

Section Dict.
Context {V : Type}.

Fixpoint dict_get (d : list (string * V)) (k : string) : option V :=
  match d with
  | [] => None
  | (k', v) :: d' => if String.eqb k k' then Some v else dict_get d' k
  end.

Fixpoint dict_set (d : list (string * V)) (k : string) (v : V)
  : list (string * V) :=
  match d with
  | [] => [(k, v)]
  | (k', v') :: d' =>
      if String.eqb k k' then (k', v) :: d' else (k', v') :: dict_set d' k v
  end.

Definition dict_keys (d : list (string * V)) : list string := map fst d.
Definition dict_values (d : list (string * V)) : list V := map snd d.
End Dict.

(** [sum(xs)] over numbers. *)
Definition Qsum (xs : list Q) : Q := fold_right Qplus 0 xs.

Definition Qltb (x y : Q) : bool := negb (Qle_bool y x).

(** ** Currencies *)

(** An entry of [currency_dict]: the ['type'] field with what the storage
    code reads of the record. *)
Inductive currency_data : Type :=
  | Currency (class : string)
  | CurrencyClass (currencies : list string)
  | UnknownType.

(** ** Attributes *)

(** A value of [attrs]: a number (rates, capacities, thresholds) or a word
    (an event kind, the name of a custom function). *)
Inductive attr_value : Type :=
  | VNum (x : Q)
  | VStr (s : string).

(** [attr_value == word] *)
Definition is_word (v : attr_value) (word : string) : bool :=
  match v with
  | VStr s => String.eqb s word
  | VNum _ => false
  end.

(** The keyword arguments of [variation_func.get_variable]. *)
Record variation : Type := mkVariation {
  upper : Q;
  lower : Q;
  distribution : string;
}.

(** An entry of [attr_details], with the keys the engine reads.  A key that
    may be absent or [None] is an [option]. *)
Record attr_detail : Type := mkDetail {
  detail_unit : string;
  criteria_name : option string;
  criteria_limit : string;
  criteria_value : option Q;
  criteria_buffer : option Q;
  requires : list string;
  is_required : option string;
  deprive_value : option Q;
  delta_per_step : option Q;
  scope : string;
  probability_per_step : Q;
  magnitude_value : Q;
  magnitude_variation : option variation;
  duration_value : option Q;
  duration_variation : option variation;
  duration_delta_per_step : option Q;
}.

(** ** StorageAgent *)

(** Modelled from the spec: the [AttributeHolder] mixin
    ([agent_model.attribute_meta]) is not part of the sources; following the
    data model, the attributes it holds for a storage are a capacity per
    currency or currency class ([self['char_capacity_' + c]]) and a balance
    per currency ([self[c]]), and [c in self] holds when [c] is registered.
    The record also carries the fields [BaseAgent] initializes. *)
Record StorageAgent : Type := mkStorage {
  agent_type : string;
  amount : Z;
  active : bool;
  cause_of_death : option string;
  attrs : list (string * attr_value);
  attr_details : gmap string attr_detail;
  currency_dict : gmap string currency_data;
  has_storage : bool;
  capacity : gmap string Q;
  balance : gmap string Q;
}.

Definition set_balance (s : StorageAgent) (c : string) (v : Q) : StorageAgent :=
  {| agent_type := agent_type s;
     amount := amount s;
     active := active s;
     cause_of_death := cause_of_death s;
     attrs := attrs s;
     attr_details := attr_details s;
     currency_dict := currency_dict s;
     has_storage := has_storage s;
     capacity := capacity s;
     balance := <[c := v]> (balance s) |}.

Definition set_amount (s : StorageAgent) (n : Z) : StorageAgent :=
  {| agent_type := agent_type s;
     amount := n;
     active := active s;
     cause_of_death := cause_of_death s;
     attrs := attrs s;
     attr_details := attr_details s;
     currency_dict := currency_dict s;
     has_storage := has_storage s;
     capacity := capacity s;
     balance := balance s |}.

(** [BaseAgent.destroy], the part local to the agent. *)
Definition mark_destroyed (s : StorageAgent) (reason : string) : StorageAgent :=
  {| agent_type := agent_type s;
     amount := amount s;
     active := false;
     cause_of_death := Some reason;
     attrs := attrs s;
     attr_details := attr_details s;
     currency_dict := currency_dict s;
     has_storage := has_storage s;
     capacity := capacity s;
     balance := balance s |}.

(** [StorageAgent.view] *)
Definition view (s : StorageAgent) (v : string) : result (list (string * Q)) :=
  match currency_dict s !! v with
  | None => Raise KeyError
  | Some (Currency _) =>
      b ← of_option KeyError (balance s !! v);
      Ok [(v, b)]
  | Some (CurrencyClass currencies) =>
      Ok (fold_left
            (fun acc c =>
               match balance s !! c with
               | Some b => dict_set acc c b
               | None => acc
               end)
            currencies [])
  | Some UnknownType => Raise KeyError
  end.

(** The loop of the negative branch of [increment]: one iteration per key
    of [currencies], reading the live balance. *)
Fixpoint decrement_loop (s : StorageAgent) (increment_amount : Q)
    (ratios : list (string * Q)) (keys : list string)
    (flow : list (string * Q)) : result (StorageAgent * list (string * Q)) :=
  match keys with
  | [] => Ok (s, flow)
  | currency :: keys' =>
      ratio ← of_option KeyError (dict_get ratios currency);
      bal ← of_option KeyError (balance s !! currency);
      let currency_increment_target := increment_amount * ratio in
      let currency_amount := Qmax (bal + currency_increment_target) 0 in
      let currency_increment_actual := bal - currency_amount in
      decrement_loop (set_balance s currency currency_amount) increment_amount
        ratios keys' (dict_set flow currency currency_increment_actual)
  end.

(** The dict comprehension [{c: self[c]/total for c in currencies.keys()}]. *)
Fixpoint ratios_of (s : StorageAgent) (total_view_amount : Q)
    (keys : list string) : result (list (string * Q)) :=
  match keys with
  | [] => Ok []
  | c :: keys' =>
      bal ← of_option KeyError (balance s !! c);
      rest ← ratios_of s total_view_amount keys';
      Ok ((c, bal / total_view_amount) :: rest)
  end.

(** [StorageAgent.increment] *)
Definition increment (s : StorageAgent) (view_name : string)
    (increment_amount : Q) : result (StorageAgent * list (string * Q)) :=
  if Qltb 0 increment_amount then
    let currency := view_name in
    data ← of_option KeyError (currency_dict s !! currency);
    match data with
    | Currency _ =>
        cap ← of_option KeyError (capacity s !! currency);
        bal ← of_option KeyError (balance s !! currency);
        let capacity := cap * inject_Z (amount s) in
        let currency_amount := Qmin (bal + increment_amount) capacity in
        let currency_increment_actual := bal - currency_amount in
        Ok (set_balance s currency currency_amount,
            [(currency, currency_increment_actual)])
    | _ => Raise ValueError
    end
  else if Qltb increment_amount 0 then
    currencies ← view s view_name;
    let total_view_amount := Qsum (dict_values currencies) in
    if Qle_bool total_view_amount 0 then
      Ok (s, map (fun c => (c, 0)) (dict_keys currencies))
    else
      ratios ← ratios_of s total_view_amount (dict_keys currencies);
      decrement_loop s increment_amount ratios (dict_keys currencies) []
  else Ok (s, []).

(** The details of an attribute that only declares a unit. *)
Definition capacity_detail (u : string) : attr_detail :=
  {| detail_unit := u;
     criteria_name := None; criteria_limit := ""; criteria_value := None;
     criteria_buffer := None; requires := []; is_required := None;
     deprive_value := None; delta_per_step := None;
     scope := ""; probability_per_step := 0; magnitude_value := 0;
     magnitude_variation := None; duration_value := None;
     duration_variation := None; duration_delta_per_step := None |}.

Definition water_tank : StorageAgent :=
  {| agent_type := "water_storage";
     amount := 1;
     active := true;
     cause_of_death := None;
     attrs := [("char_capacity_potable", VNum 100);
               ("char_capacity_grey", VNum 100)];
     attr_details :=
       {[ "char_capacity_potable" := capacity_detail "kg";
          "char_capacity_grey" := capacity_detail "kg" ]};
     currency_dict :=
       {[ "potable" := Currency "water"; "grey" := Currency "water";
          "water" := CurrencyClass ["potable"; "grey"] ]};
     has_storage := true;
     capacity := {[ "potable" := 100; "grey" := 100; "water" := 200 ]};
     balance := {[ "potable" := 30; "grey" := 10 ]} |}.



(** Every member a view lists carries the balance the storage holds. *)
Definition reads_balance (s : StorageAgent) (d : list (string * Q)) : Prop :=
  ∀ c b, dict_get d c = Some b → balance s !! c = Some b.

(** The balance invariant of a storage: every currency with a declared
    capacity holds between 0 and [capacity * amount]. *)
Definition bounded (s : StorageAgent) : Prop :=
  ∀ c cap b,
    capacity s !! c = Some cap → balance s !! c = Some b →
    0 <= b ∧ b <= cap * inject_Z (amount s).

(** A sequence of [increment] calls on one storage.  Every exception
    [increment] raises is raised before the first assignment, so a call that
    raises leaves the storage as it was. *)
Fixpoint increments (s : StorageAgent) (calls : list (string * Q))
    : StorageAgent :=
  match calls with
  | [] => s
  | (v, a) :: calls' =>
      match increment s v a with
      | Ok (s', _) => increments s' calls'
      | Raise _ => increments s calls'
      end
  end.

(** What the specification promises a positive increment returns: the
    amount applied, [min(a, capacity - balance)] clamped at zero. *)
Definition applied_amount (a total_capacity bal : Q) : Q :=
  Qmax (Qmin a (total_capacity - bal)) 0.

Definition o2_tank : StorageAgent :=
  {| agent_type := "o2_storage";
     amount := 1;
     active := true;
     cause_of_death := None;
     attrs := [("char_capacity_o2", VNum 100)];
     attr_details := {[ "char_capacity_o2" := capacity_detail "kg" ]};
     currency_dict :=
       {[ "o2" := Currency "atmosphere"; "atmosphere" := CurrencyClass ["o2"] ]};
     has_storage := true;
     capacity := {[ "o2" := 100; "atmosphere" := 100 ]};
     balance := {[ "o2" := 0 ]} |}.


(** ** Python helpers *)

(** [s.split(sep, maxsplit)] for a one-character separator. *)
Fixpoint split_on (sep : ascii) (maxsplit : nat) (s : string) : list string :=
  match s with
  | EmptyString => [EmptyString]
  | String c s' =>
      if Ascii.eqb c sep then
        match maxsplit with
        | O => [s]
        | S n => EmptyString :: split_on sep n s'
        end
      else
        match split_on sep maxsplit s' with
        | [] => [String c EmptyString]
        | piece :: pieces => String c piece :: pieces
        end
  end.

(** [s.split('_')] *)
Definition split_all (s : string) : list string :=
  split_on "_"%char (String.length s) s.

(** ['_'.join(pieces)] *)
Definition join (pieces : list string) : string := String.concat "_" pieces.

(** [s.startswith(p)] *)
Definition startswith (s p : string) : bool := String.prefix p s.

(** [int(x)]: truncation toward zero. *)
Definition py_int (x : Q) : Z := Z.quot (Qnum x) (Z.pos (Qden x)).

(** [xs[i]] on a sequence: a negative index counts from the end. *)
Definition py_index {A : Type} (xs : list A) (i : Z) : result A :=
  let n := Z.of_nat (length xs) in
  if (0 <=? i)%Z then of_option IndexError (xs !! Z.to_nat i)
  else if (- n <=? i)%Z then of_option IndexError (xs !! Z.to_nat (n + i))
  else Raise IndexError.

(** [xs[:n]] *)
Definition py_prefix {A : Type} (xs : list A) (n : Z) : list A :=
  if (0 <=? n)%Z then firstn (Z.to_nat n) xs
  else firstn (Z.to_nat (Z.of_nat (length xs) + n)) xs.

(** [x / y] on Python numbers. *)
Definition py_div (x y : Q) : result Q :=
  if Qeq_bool y 0 then Raise ZeroDivisionError else Ok (x / y).

(** [x % y] on integers. *)
Definition py_mod (x y : Z) : result Z :=
  if (y =? 0)%Z then Raise ZeroDivisionError else Ok (x mod y)%Z.

(** [np.prod] of the values of a dict. *)
Definition Qprod (xs : list Q) : Q := fold_right Qmult 1 xs.

(** [value or default] on an optional number: [None] and [0] are falsy. *)
Definition or_default (o : option Q) (default : Q) : Q :=
  match o with
  | Some x => if Qeq_bool x 0 then default else x
  | None => default
  end.

(** Truth value of an optional string: [None] and [''] are falsy. *)
Definition nonempty (o : option string) : option string :=
  match o with
  | Some EmptyString => None
  | _ => o
  end.

(** ** GeneralAgent *)

Inductive flow_direction : Type := In_ | Out_.

Definition prefix_of (d : flow_direction) : string :=
  match d with In_ => "in" | Out_ => "out" end.

(** An entry of an event's instance list: [dict(magnitude=..)], with an
    optional ['duration']. *)
Record event_instance : Type := mkInstance {
  magnitude : Q;
  duration : option Q;
}.

(** The fields [GeneralAgent.__init__] adds to a storage.  Connected storage
    agents are named by their [agent_type], the key under which the model
    finds them; an agent connected to its own type is connected to itself. *)
Record GeneralAgent : Type := mkAgent {
  storage : StorageAgent;
  age : Q;
  selected_storage_in : list (string * list string);
  selected_storage_out : list (string * list string);
  buffer : gmap string Q;
  deprive : gmap string Q;
  step_values : gmap string (list Q);
  events : gmap string (list event_instance);
  event_multipliers : gmap string Q;
  process_events : bool;
  step_variation : option variation;
  step_variable : Q;
  missing_desired : bool;
  step_exchange_buffer_in : list (string * list (string * Q));
  step_exchange_buffer_out : list (string * list (string * Q));
}.

Definition selected_storage (a : GeneralAgent) (d : flow_direction)
  : list (string * list string) :=
  match d with
  | In_ => selected_storage_in a
  | Out_ => selected_storage_out a
  end.

Definition step_exchange_buffer (a : GeneralAgent) (d : flow_direction)
  : list (string * list (string * Q)) :=
  match d with
  | In_ => step_exchange_buffer_in a
  | Out_ => step_exchange_buffer_out a
  end.

Definition with_storage (a : GeneralAgent) (s : StorageAgent) : GeneralAgent :=
  mkAgent s (age a) (selected_storage_in a) (selected_storage_out a)
    (buffer a) (deprive a) (step_values a) (events a) (event_multipliers a)
    (process_events a) (step_variation a) (step_variable a) (missing_desired a)
    (step_exchange_buffer_in a) (step_exchange_buffer_out a).

Definition with_age (a : GeneralAgent) (x : Q) : GeneralAgent :=
  mkAgent (storage a) x (selected_storage_in a) (selected_storage_out a)
    (buffer a) (deprive a) (step_values a) (events a) (event_multipliers a)
    (process_events a) (step_variation a) (step_variable a) (missing_desired a)
    (step_exchange_buffer_in a) (step_exchange_buffer_out a).

Definition with_buffer (a : GeneralAgent) (b : gmap string Q) : GeneralAgent :=
  mkAgent (storage a) (age a) (selected_storage_in a) (selected_storage_out a)
    b (deprive a) (step_values a) (events a) (event_multipliers a)
    (process_events a) (step_variation a) (step_variable a) (missing_desired a)
    (step_exchange_buffer_in a) (step_exchange_buffer_out a).

Definition with_deprive (a : GeneralAgent) (d : gmap string Q) : GeneralAgent :=
  mkAgent (storage a) (age a) (selected_storage_in a) (selected_storage_out a)
    (buffer a) d (step_values a) (events a) (event_multipliers a)
    (process_events a) (step_variation a) (step_variable a) (missing_desired a)
    (step_exchange_buffer_in a) (step_exchange_buffer_out a).

Definition with_events (a : GeneralAgent)
    (ev : gmap string (list event_instance)) (mult : gmap string Q)
  : GeneralAgent :=
  mkAgent (storage a) (age a) (selected_storage_in a) (selected_storage_out a)
    (buffer a) (deprive a) (step_values a) ev mult
    (process_events a) (step_variation a) (step_variable a) (missing_desired a)
    (step_exchange_buffer_in a) (step_exchange_buffer_out a).

Definition with_step_variable (a : GeneralAgent) (x : Q) : GeneralAgent :=
  mkAgent (storage a) (age a) (selected_storage_in a) (selected_storage_out a)
    (buffer a) (deprive a) (step_values a) (events a) (event_multipliers a)
    (process_events a) (step_variation a) x (missing_desired a)
    (step_exchange_buffer_in a) (step_exchange_buffer_out a).

Definition with_missing_desired (a : GeneralAgent) (b : bool) : GeneralAgent :=
  mkAgent (storage a) (age a) (selected_storage_in a) (selected_storage_out a)
    (buffer a) (deprive a) (step_values a) (events a) (event_multipliers a)
    (process_events a) (step_variation a) (step_variable a) b
    (step_exchange_buffer_in a) (step_exchange_buffer_out a).

Definition with_exchange_buffer (a : GeneralAgent) (d : flow_direction)
    (buf : list (string * list (string * Q))) : GeneralAgent :=
  mkAgent (storage a) (age a) (selected_storage_in a) (selected_storage_out a)
    (buffer a) (deprive a) (step_values a) (events a) (event_multipliers a)
    (process_events a) (step_variation a) (step_variable a) (missing_desired a)
    (match d with In_ => buf | Out_ => step_exchange_buffer_in a end)
    (match d with In_ => step_exchange_buffer_out a | Out_ => buf end).

(** ** The model *)

(** The entry [storage_ratios['co2']] kept by the plants; [co2_time] is
    [None] for the initial [time=0], which equals no [str(model.time)]. *)
Record co2_cache : Type := mkCo2 {
  co2_time : option string;
  co2_uptake_ratio : Q;
  transpiration_efficiency_factor : Q;
}.

(** The fields of [AgentModel] the agents read and write.  [agents] is the
    store of all agent objects by [agent_type]; [scheduler] lists the agents
    still stepped.  The [co2] entry of [storage_ratios] has a field of its
    own. *)
Record Model (R : Type) : Type := mkModel {
  agents : gmap string GeneralAgent;
  scheduler : list string;
  hours_per_step : Q;
  day_length_hours : Q;
  time : string;
  storage_ratios : gmap string (gmap string Q);
  co2 : option co2_cache;
  random_state : R;
}.
Arguments mkModel {R}.
Arguments agents {R}.
Arguments scheduler {R}.
Arguments hours_per_step {R}.
Arguments day_length_hours {R}.
Arguments time {R}.
Arguments storage_ratios {R}.
Arguments co2 {R}.
Arguments random_state {R}.

(** What the engine takes from outside of [core.py]: the generator behind
    [model.random_state], [variation_func.get_variable], the unit conversion
    of [quantities] (the factor from one unit to another) and the functions
    of the module [custom_funcs], looked up by name and applied to the
    agent.

    [attribute a name] is what the [AttributeHolder] mixin, which is not
    part of the sources, answers to [name in self] and [self[name]] for a
    name that is neither a balance nor a capacity of the record: an
    attribute set on the object ([growth_rate] of a plant, [age], ...).
    [None] is [name not in self]; a value that is not a number is a
    [VStr].

    [float_div x y] is the quotient [x / y] as the interpreter computes it
    on floats, for [y] other than 0: the double next to the exact quotient.
    It stands where the code floors a quotient, since there the rounding
    decides an integer. *)
Class Externals : Type := {
  rng : Type;
  rand : rng → Q * rng;
  get_variable : rng → variation → Q * rng;
  rescale : string → string → Q;
  custom_funcs : string → option (string → Model rng → result (Model rng));
  attribute : GeneralAgent → string → option attr_value;
  float_div : Q → Q → Q;
}.

Definition with_agents {R} (m : Model R) (ags : gmap string GeneralAgent)
  : Model R :=
  mkModel ags (scheduler m) (hours_per_step m) (day_length_hours m) (time m)
    (storage_ratios m) (co2 m) (random_state m).

Definition with_scheduler {R} (m : Model R) (sch : list string) : Model R :=
  mkModel (agents m) sch (hours_per_step m) (day_length_hours m) (time m)
    (storage_ratios m) (co2 m) (random_state m).

Definition with_storage_ratios {R} (m : Model R)
    (ratios : gmap string (gmap string Q)) : Model R :=
  mkModel (agents m) (scheduler m) (hours_per_step m) (day_length_hours m)
    (time m) ratios (co2 m) (random_state m).

Definition with_co2 {R} (m : Model R) (c : option co2_cache) : Model R :=
  mkModel (agents m) (scheduler m) (hours_per_step m) (day_length_hours m)
    (time m) (storage_ratios m) c (random_state m).

Definition with_random_state {R} (m : Model R) (r : R) : Model R :=
  mkModel (agents m) (scheduler m) (hours_per_step m) (day_length_hours m)
    (time m) (storage_ratios m) (co2 m) r.

(** How a loop body or a block of [step] ends: it falls through to the next
    statement, or it leaves the method ([return]). *)
Inductive control : Type := Next | Return.

Section Engine.
Context `{Externals}.

(** A method of an agent: a computation on the model that may raise. *)
Definition M (A : Type) : Type := Model rng → result (A * Model rng).

Definition ret {A} (a : A) : M A := fun m => Ok (a, m).

Definition bind {A B} (c : M A) (k : A → M B) : M B := fun m =>
  match c m with
  | Ok (a, m') => k a m'
  | Raise e => Raise e
  end.

#[global] Instance M_ret : MRet M := @ret.
#[global] Instance M_bind : MBind M := fun _ _ k c => bind c k.

Definition raise {A} (e : error) : M A := fun _ => Raise e.

Definition lift {A} (r : result A) : M A := fun m =>
  match r with
  | Ok a => Ok (a, m)
  | Raise e => Raise e
  end.

Definition read {A} (f : Model rng → A) : M A := fun m => Ok (f m, m).

Definition write (f : Model rng → Model rng) : M unit := fun m => Ok (tt, f m).

(** The agent object behind a reference. *)
Definition get_agent (id : string) : M GeneralAgent := fun m =>
  match agents m !! id with
  | Some a => Ok (a, m)
  | None => Raise KeyError
  end.

Definition set_agent (id : string) (a : GeneralAgent) : M unit :=
  write (fun m => with_agents m (<[id := a]> (agents m))).

Definition modify_agent (id : string) (f : GeneralAgent → GeneralAgent)
  : M unit :=
  a ← get_agent id; set_agent id (f a).

(** [for x in xs: body], where [body] may [return] from the method. *)
Fixpoint for_each {A} (xs : list A) (body : A → M control) : M control :=
  match xs with
  | [] => ret Next
  | x :: xs' =>
      c ← body x;
      match c with
      | Next => for_each xs' body
      | Return => ret Return
      end
  end.

(** [BaseAgent.destroy], through [GeneralAgent.kill]. *)
Definition kill (self reason : string) : M unit :=
  modify_agent self (fun a => with_storage a (mark_destroyed (storage a) reason));;
  write (fun m =>
           with_scheduler m
             (List.filter (fun id => negb (String.eqb id self)) (scheduler m))).

(** ** StorageAgent.step *)

(** The first loop of [_calculate_storage_ratios]: [temp] and [total], the
    latter with its unit. *)
Fixpoint storage_totals (s : StorageAgent) (names : list string)
    (temp : list (string * Q)) (total : option (Q * string))
  : result (list (string * Q) * option (Q * string)) :=
  match names with
  | [] => Ok (temp, total)
  | attr :: names' =>
      if startswith attr "char_capacity" then
        currency ← of_option IndexError (split_on "_"%char 2 attr !! 2%nat);
        detail ← of_option KeyError (attr_details s !! attr);
        let storage_unit := detail_unit detail in
        bal ← of_option KeyError (balance s !! currency);
        match total with
        | Some (t, u) =>
            if Qeq_bool t 0 then
              storage_totals s names' (dict_set temp currency bal)
                (Some (bal, storage_unit))
            else
              let storage_value := bal * rescale storage_unit u in
              storage_totals s names' (dict_set temp currency storage_value)
                (Some (t + storage_value, u))
        | None =>
            storage_totals s names' (dict_set temp currency bal)
              (Some (bal, storage_unit))
        end
      else storage_totals s names' temp total
  end.

(** The second loop: one ratio per currency of [temp]. *)
Fixpoint storage_ratio_entries (temp : list (string * Q)) (total : Q)
    (ratios : gmap string Q) : result (gmap string Q) :=
  match temp with
  | [] => Ok ratios
  | (currency, value) :: temp' =>
      if Qltb 0 value then
        r ← py_div value total;
        storage_ratio_entries temp' total (<[currency +:+ "_ratio" := r]> ratios)
      else
        storage_ratio_entries temp' total (<[currency +:+ "_ratio" := 0]> ratios)
  end.

Definition calculate_storage_ratios (self : string) : M unit :=
  a ← get_agent self;
  let storage_id := agent_type (storage a) in
  ratios ← read (fun m => default ∅ (storage_ratios m !! storage_id));
  '(temp, total) ← lift (storage_totals (storage a) (dict_keys (attrs (storage a))) [] None);
  let total_magnitude := match total with Some (t, _) => t | None => 0 end in
  ratios' ← lift (storage_ratio_entries temp total_magnitude ratios);
  write (fun m => with_storage_ratios m (<[storage_id := ratios']> (storage_ratios m))).

Definition storage_step (self : string) : M unit :=
  a ← get_agent self;
  if has_storage (storage a) then calculate_storage_ratios self else ret tt.

(** ** Step values *)

(** [name in self] and [self[name]] on the attribute holder, for the
    attributes the record carries: balances and capacities. *)
Definition holder_get (s : StorageAgent) (name : string) : option Q :=
  match balance s !! name with
  | Some v => Some v
  | None =>
      if startswith name "char_capacity_"
      then capacity s !! String.substring 14 (String.length name - 14) name
      else None
  end.

(** [GeneralAgent._get_storage_ratio] *)
Definition get_storage_ratio (self : string) (cr_name : string) : M Q :=
  let elements := split_all cr_name in
  let direction := List.last elements "" in
  ratios ← read storage_ratios;
  let specific (d : flow_direction) : M Q :=
    a ← get_agent self;
    currency ← lift (of_option IndexError (elements !! 0%nat));
    let cr_actual := join (firstn 2 elements) in
    conns ← lift (of_option KeyError (dict_get (selected_storage a d) currency));
    first ← lift (of_option IndexError (conns !! 0%nat));
    st ← get_agent first;
    let storage_id := agent_type (storage st) in
    entry ← lift (of_option KeyError (ratios !! storage_id));
    r ← lift (of_option KeyError (entry !! cr_actual));
    ret (0 + r)
  in
  if String.eqb direction "in" then specific In_
  else if String.eqb direction "out" then specific Out_
  else
    ret (fold_right
           (fun kv total =>
              match kv.2 !! cr_name with
              | Some r => total + r
              | None => total
              end) 0 (rev (map_to_list ratios))).

(** The table [{'>': operator.gt, '<': operator.lt, '=': operator.eq}]. *)
Definition comparison (limit : string) : result (Q → Q → bool) :=
  if String.eqb limit ">" then Ok (fun x y => Qltb y x)
  else if String.eqb limit "<" then Ok (fun x y => Qltb x y)
  else if String.eqb limit "=" then Ok Qeq_bool
  else Raise KeyError.

(** [opp = {...}[cr_limit]] followed by [opp(source, cr_value)]: a source
    that is not a number is unequal to every number and is not ordered with
    one. *)
Definition criteria_holds (limit : string) (source : attr_value) (value : Q)
  : result bool :=
  opp ← comparison limit;
  match source with
  | VNum x => Ok (opp x value)
  | VStr _ => if String.eqb limit "=" then Ok false else Raise TypeError
  end.

(** The lookup that ends [_get_step_value]. *)
Definition lookup_step_value (values : list Q) (step_num : Z)
    (day_length_hours : Q) : result Q :=
  if (Z.of_nat (length values) <=? step_num)%Z then
    step_num' ← py_mod step_num (py_int day_length_hours);
    py_index values step_num'
  else py_index values step_num.

(** The value a criteria is compared on: an attribute of the agent when
    [cr_name in self] (a balance, a capacity or another attribute of the
    object), a storage ratio otherwise. *)
Definition criteria_source (self : string) (cr_name : string)
  : M attr_value :=
  a ← get_agent self;
  match holder_get (storage a) cr_name with
  | Some v => ret (VNum v)
  | None =>
      match attribute a cr_name with
      | Some v => ret v
      | None =>
          ratio ← get_storage_ratio self cr_name;
          ret (VNum ratio)
      end
  end.

(** The statements that end [_get_step_value], reached when no criteria
    suppresses the flow. *)
Definition curve_lookup (a : GeneralAgent) (attr : string) (step_num : Z)
    (m : Model rng) : result (Q * Model rng) :=
  match step_values a !! attr with
  | Some values =>
      match lookup_step_value values step_num (day_length_hours m) with
      | Ok v => Ok (v, m)
      | Raise e => Raise e
      end
  | None => Raise KeyError
  end.

(** [GeneralAgent._get_step_value] *)
Definition get_step_value (self : string) (attr : string) (step_num : Z)
  : M Q :=
  match split_on "_"%char 1 attr with
  | [_; _] =>
      a ← get_agent self;
      detail ← lift (of_option KeyError (attr_details (storage a) !! attr));
      let final : M Q :=
        a ← get_agent self;
        curve_lookup a attr step_num
      in
      match nonempty (criteria_name detail) with
      | Some cr_name =>
          let cr_limit := criteria_limit detail in
          let cr_value := or_default (criteria_value detail) 0 in
          let cr_buffer := or_default (criteria_buffer detail) 0 in
          source ← criteria_source self cr_name;
          holds ← lift (criteria_holds cr_limit source cr_value);
          if (holds : bool) then
            if Qltb 0 cr_buffer && Qltb 0 (default 0 (buffer a !! attr)) then
              modify_agent self (fun a =>
                with_buffer a (<[attr := default 0 (buffer a !! attr) - 1]> (buffer a)));;
              ret 0
            else final
          else
            (if Qltb 0 cr_buffer then
               modify_agent self (fun a =>
                 with_buffer a (<[attr := cr_buffer]> (buffer a)))
             else ret tt);;
            ret 0
      | None => final
      end
  | _ => raise ValueError
  end.

(** ** Events *)

Definition draw : M Q := fun m =>
  let '(v, r) := rand (random_state m) in Ok (v, with_random_state m r).

Definition draw_variable (v : variation) : M Q := fun m =>
  let '(x, r) := get_variable (random_state m) v in
  Ok (x, with_random_state m r).

(** The first loop of [_process_event]: every instance with a duration
    loses [duration_delta_per_step]. *)
Fixpoint age_instances (detail : attr_detail) (instances : list event_instance)
  : result (list event_instance) :=
  match instances with
  | [] => Ok []
  | i :: rest =>
      i' ← match duration i with
           | Some d =>
               delta ← of_option KeyError (duration_delta_per_step detail);
               Ok (mkInstance (magnitude i) (Some (d - delta)))
           | None => Ok i
           end;
      rest' ← age_instances detail rest;
      Ok (i' :: rest')
  end.

(** The filter of [_process_event]: an instance whose duration ran out is
    dropped. *)
Definition still_active (i : event_instance) : bool :=
  match duration i with
  | Some d => negb (Qle_bool d 0)
  | None => true
  end.

(** The instance a successful roll of a multiplier event adds. *)
Definition new_instance (detail : attr_detail) : M event_instance :=
  magnitude ←
    match magnitude_variation detail with
    | Some v =>
        magnitude_variable ← draw_variable v;
        ret (magnitude_value detail * magnitude_variable)
    | None => ret (magnitude_value detail)
    end;
  match duration_value detail with
  | Some d =>
      if Qeq_bool d 0 then ret (mkInstance magnitude None)
      else
        match duration_variation detail with
        | Some v =>
            duration_variable ← draw_variable v;
            ret (mkInstance magnitude (Some (d * duration_variable)))
        | None => ret (mkInstance magnitude (Some d))
        end
  | None => ret (mkInstance magnitude None)
  end.

(** [for i in range(max_new_instances)]: one roll per empty slot. *)
Fixpoint roll_instances (n : nat) (self : string) (attr_value : attr_value)
    (detail : attr_detail) (event_type : string)
    (instances : list event_instance) : M (list event_instance) :=
  match n with
  | O => ret instances
  | S n' =>
      instance_variable ← draw;
      if Qltb (probability_per_step detail) instance_variable then
        roll_instances n' self attr_value detail event_type instances
      else
        if is_word attr_value "termination" then
          kill self ("Agent died due to " +:+ event_type);;
          roll_instances n' self attr_value detail event_type instances
        else if is_word attr_value "multiplier" then
          instance ← new_instance detail;
          roll_instances n' self attr_value detail event_type
            (instances ++ [instance])
        else roll_instances n' self attr_value detail event_type instances
  end.

(** [GeneralAgent._process_event] *)
Definition process_event (self : string) (attr : string)
    (attr_value : attr_value) : M unit :=
  event_type ← lift (of_option IndexError (split_on "_"%char 1 attr !! 1%nat));
  a ← get_agent self;
  detail ← lift (of_option KeyError (attr_details (storage a) !! attr));
  (* update instances for duration and amount *)
  let instances := default [] (events a !! event_type) in
  instances ← lift (age_instances detail instances);
  let instances := List.filter still_active instances in
  let instances :=
    if (amount (storage a) <? Z.of_nat (length instances))%Z
    then py_prefix instances (amount (storage a))
    else instances in
  (* randomly generate new instances *)
  let max_instances :=
    if String.eqb (scope detail) "group" then 1%Z else amount (storage a) in
  let max_new_instances := (max_instances - Z.of_nat (length instances))%Z in
  instances ← roll_instances (Z.to_nat max_new_instances) self attr_value
                detail event_type instances;
  (* update event records *)
  a ← get_agent self;
  match instances with
  | [] =>
      match events a !! event_type with
      | Some _ =>
          _ ← lift (of_option KeyError (event_multipliers a !! event_type));
          set_agent self
            (with_events a (delete event_type (events a))
               (delete event_type (event_multipliers a)))
      | None => ret tt
      end
  | _ :: _ =>
      let modified := Qsum (map magnitude instances) in
      let unmodified := (max_instances - Z.of_nat (length instances))%Z in
      event_multiplier ←
        lift (py_div (modified + inject_Z unmodified) (inject_Z max_instances));
      set_agent self
        (with_events a (<[event_type := instances]> (events a))
           (<[event_type := event_multiplier]> (event_multipliers a)))
  end.

(** ** GeneralAgent.step *)

(** [for x in xs: body] with a local variable the body updates. *)
Fixpoint for_each_acc {A S} (xs : list A) (s : S)
    (body : A → S → M (control * S)) : M (control * S) :=
  match xs with
  | [] => ret (Next, s)
  | x :: xs' =>
      '(c, s') ← body x s;
      match c with
      | Next => for_each_acc xs' s' body
      | Return => ret (Return, s')
      end
  end.

(** The table [{'upper': operator.gt, 'lower': operator.lt}]. *)
Definition threshold_test (threshold_type : string) (ratio bound : Q)
  : result bool :=
  if String.eqb threshold_type "upper" then Ok (Qltb bound ratio)
  else if String.eqb threshold_type "lower" then Ok (Qltb ratio bound)
  else Raise KeyError.

(** 1. Check thresholds. *)
Definition check_threshold (self attr : string) (attr_value : attr_value)
  : M control :=
  if startswith attr "char_threshold_" then
    let parts := rev (split_all attr) in
    match parts with
    | currency :: threshold_type :: _ =>
        for_each [In_; Out_] (fun prefix =>
          a ← get_agent self;
          match dict_get (selected_storage a prefix) currency with
          | Some conns =>
              for_each conns (fun storage_agent =>
                st ← get_agent storage_agent;
                let agent_id := agent_type (storage st) in
                ratios ← read storage_ratios;
                entry ← lift (of_option KeyError (ratios !! agent_id));
                storage_ratio ←
                  lift (of_option KeyError (entry !! (currency +:+ "_ratio")));
                bound ← lift (match attr_value with
                              | VNum x => Ok x
                              | VStr _ => Raise ValueError
                              end);
                violated ← lift (threshold_test threshold_type storage_ratio bound);
                if (violated : bool) then
                  a ← get_agent self;
                  kill self ("Threshold " +:+ currency +:+ " met for "
                             +:+ agent_type (storage a)
                             +:+ ". Killing the agent");;
                  ret Return
                else ret Next)
          | None => ret Next
          end)
    | _ => raise ValueError
    end
  else ret Next.

(** 2. Execute custom functions. *)
Definition run_custom_function (self attr : string) (attr_value : attr_value)
  : M unit :=
  if String.eqb attr "char_custom_function" then
    match attr_value with
    | VStr name =>
        match custom_funcs name with
        | Some custom_function =>
            fun m => match custom_function self m with
                     | Ok m' => Ok (tt, m')
                     | Raise e => Raise e
                     end
        | None => raise UnknownCustomFunction
        end
    | VNum _ => raise UnknownCustomFunction
    end
  else ret tt.

(** The body of the loop over [self.attrs.items()]. *)
Definition attr_body (self : string) (item : string * attr_value) : M control :=
  let '(attr, attr_value) := item in
  c ← check_threshold self attr attr_value;
  match c with
  | Return => ret Return
  | Next =>
      run_custom_function self attr attr_value;;
      a ← get_agent self;
      (if startswith attr "event" && process_events a
       then process_event self attr attr_value
       else ret tt);;
      ret Next
  end.

(** A connection of [available_conns]. *)
Record connection : Type := mkConn {
  conn_agent : string;
  conn_value : Q;
  conn_capacity : Q;
}.

(** 7. Calculate available value. *)
Fixpoint available (selected_storages : list string) (currency : string)
    (available_value : Q) (available_conns : list connection)
  : M (Q * list connection) :=
  match selected_storages with
  | [] => ret (available_value, available_conns)
  | storage_id :: rest =>
      st ← get_agent storage_id;
      currencies ← lift (view (storage st) currency);
      let storage_value := Qsum (dict_values currencies) in
      storage_cap ← lift (of_option KeyError (capacity (storage st) !! currency));
      let storage_amount := amount (storage st) in
      available rest currency (available_value + storage_value)
        (available_conns ++
           [mkConn storage_id storage_value
              (storage_cap * inject_Z storage_amount)])
  end.

(** 8.1 Requires: a deficit of a required input ends the step
    ([mandatory]) or stalls growth ([desired]). *)
Definition check_required (self : string) (detail : attr_detail)
    (has_deficit : bool) : M control :=
  match nonempty (is_required detail) with
  | Some is_required =>
      if has_deficit then
        if String.eqb is_required "mandatory" then ret Return
        else if String.eqb is_required "desired" then
          modify_agent self (fun a => with_missing_desired a true);;
          ret Next
        else ret Next
      else ret Next
  | None => ret Next
  end.

(** [math.floor(x / y)]: the quotient is the one of floats. *)
Definition floor_div (x y : Q) : result Z :=
  if Qeq_bool y 0 then Raise ZeroDivisionError
  else Ok (Qfloor (float_div x y)).

(** 8.2 Deprive.  The result is how the block ends and [actual_value]. *)
Definition update_deprive (self attr : string) (detail : attr_detail)
    (currency : string) (has_deficit : bool)
    (available_value actual_value step_mag : Q) : M (control * Q) :=
  let deprive_value := or_default (deprive_value detail) 0 in
  a ← get_agent self;
  if has_deficit && Qltb 0 deprive_value then
    n_satisfied ← lift (floor_div available_value step_mag);
    let actual_value := inject_Z n_satisfied * step_mag in
    let delta_per_step := default 0 (delta_per_step detail) in
    budget ← lift (of_option KeyError (deprive a !! attr));
    max_survive ← lift (floor_div (Qmax budget 0) delta_per_step);
    let n_deprived := (amount (storage a) - n_satisfied)%Z in
    let n_survive := Z.min n_deprived max_survive in
    let n_die := (n_deprived - n_survive)%Z in
    let new_amount := (amount (storage a) - n_die)%Z in
    set_agent self
      (with_storage
         (with_deprive a
            (<[attr := budget - delta_per_step * inject_Z n_survive]> (deprive a)))
         (set_amount (storage a) new_amount));;
    if (new_amount <=? 0)%Z then
      kill self ("All " +:+ agent_type (storage a) +:+ " died from lack of "
                 +:+ currency +:+ ". Killing the agent");;
      ret (Return, actual_value)
    else ret (Next, actual_value)
  else if Qltb 0 deprive_value then
    budget ← lift (of_option KeyError (deprive a !! attr));
    set_agent self
      (with_deprive a
         (<[attr := Qmin (deprive_value * inject_Z (amount (storage a)))
                      (budget + deprive_value)]> (deprive a)));;
    ret (Next, actual_value)
  else ret (Next, actual_value).

(** 8. Update agent based on deficit/sufficiency. *)
Definition update_deficit (self attr : string) (detail : attr_detail)
    (prefix : flow_direction) (currency : string)
    (available_value target_value step_mag : Q) : M (control * Q) :=
  let actual_value := target_value in
  let has_deficit :=
    match prefix with
    | In_ => Qltb available_value target_value
    | Out_ => false
    end in
  c ← check_required self detail has_deficit;
  match c with
  | Return => ret (Return, actual_value)
  | Next =>
      update_deprive self attr detail currency has_deficit
        available_value actual_value step_mag
  end.

(** [storage.increment(currency, x)] on a connected storage. *)
Definition increment_storage (storage_id currency : string) (x : Q)
  : M (list (string * Q)) :=
  st ← get_agent storage_id;
  '(s', flow) ← lift (increment (storage st) currency x);
  set_agent storage_id (with_storage st s');;
  ret flow.

(** The logging loop over [flow.items()]. *)
Definition record_flow (buf : list (string * list (string * Q)))
    (storage_type : string) (flow : list (string * Q))
  : list (string * list (string * Q)) :=
  fold_left
    (fun buf '(_currency, _amount) =>
       let inner := default [] (dict_get buf _currency) in
       dict_set buf _currency (dict_set inner storage_type (Qabs _amount)))
    flow buf.

(** 9. Process exchange: the loop over [available_conns], with
    [remaining_value] and the set [influx]. *)
Fixpoint exchange_loop (self : string) (prefix : flow_direction)
    (currency : string) (actual_value value_eps : Q) (n_conns : nat)
    (conns : list connection) (remaining_value : Q) (influx : list string)
  : M (list string) :=
  match conns with
  | [] => ret influx
  | conn :: rest =>
      let storage_id := conn_agent conn in
      let conn_delta :=
        match prefix with
        | In_ => Qmin remaining_value (conn_value conn)
        | Out_ => remaining_value / inject_Z (Z.of_nat n_conns)
        end in
      flow ← increment_storage storage_id currency
               (match prefix with In_ => - conn_delta | Out_ => conn_delta end);
      let remaining_value := remaining_value - conn_delta in
      if Qltb actual_value value_eps then
        exchange_loop self prefix currency actual_value value_eps n_conns
          rest remaining_value influx
      else
        let influx :=
          match prefix with
          | In_ => if existsb (String.eqb currency) influx
                   then influx else influx ++ [currency]
          | Out_ => influx
          end in
        st ← get_agent storage_id;
        modify_agent self (fun a =>
          with_exchange_buffer a prefix
            (record_flow (step_exchange_buffer a prefix)
               (agent_type (storage st)) flow));;
        exchange_loop self prefix currency actual_value value_eps n_conns
          rest remaining_value influx
  end.

Definition process_exchange (self : string) (prefix : flow_direction)
    (currency : string) (actual_value value_eps : Q)
    (available_conns : list connection) (influx : list string)
  : M (list string) :=
  exchange_loop self prefix currency actual_value value_eps
    (length available_conns) available_conns actual_value influx.

(** The body of the loop over [self.selected_storage[prefix].items()]. *)
Definition flow_body (self : string) (value_eps : Q) (prefix : flow_direction)
    (item : string * list string) (influx : list string)
  : M (control * list string) :=
  let '(currency, selected_storages) := item in
  let attr := prefix_of prefix +:+ "_" +:+ currency in
  a ← get_agent self;
  detail ← lift (of_option KeyError (attr_details (storage a) !! attr));
  (* 5. check escape parameters *)
  rate ← lift (of_option KeyError (dict_get (attrs (storage a)) attr));
  if match rate with VNum x => Qeq_bool x 0 | VStr _ => false end
  then ret (Next, influx)
  else if existsb (fun r => negb (existsb (String.eqb r) influx)) (requires detail)
  then ret (Next, influx)
  else
    (* 6. calculate target value *)
    let step_num := py_int (age a) in
    step_value ← get_step_value self attr step_num;
    a ← get_agent self;
    let step_value := step_value * step_variable a in
    let step_value :=
      step_value * Qprod (map snd (map_to_list (event_multipliers a))) in
    let step_mag := step_value in
    let target_value := step_mag * inject_Z (amount (storage a)) in
    (* 7. calculate available value *)
    '(available_value, available_conns) ← available selected_storages currency 0 [];
    (* 8. update agent based on deficit/sufficiency *)
    '(c, actual_value) ← update_deficit self attr detail prefix currency
                           available_value target_value step_mag;
    match c with
    | Return => ret (Return, influx)
    | Next =>
        (* 9. process exchange *)
        influx ← process_exchange self prefix currency actual_value value_eps
                   available_conns influx;
        ret (Next, influx)
    end.

(** The two nested loops over [prefix] and the connections. *)
Definition flows (self : string) (value_eps : Q) : M control :=
  '(c, _) ←
    for_each_acc [In_; Out_] ([] : list string) (fun prefix influx =>
      a ← get_agent self;
      for_each_acc (selected_storage a prefix) influx
        (flow_body self value_eps prefix));
  ret c.

(** [GeneralAgent.step] *)
Definition step (self : string) (value_eps : Q) : M unit :=
  storage_step self;;
  modify_agent self (fun a =>
    with_exchange_buffer (with_exchange_buffer a In_ []) Out_ []);;
  hps ← read hours_per_step;
  modify_agent self (fun a => with_age a (age a + hps));;
  a ← get_agent self;
  c ← for_each (attrs (storage a)) (attr_body self);
  match c with
  | Return => ret tt
  | Next =>
      (* 4. generate random variation *)
      a ← get_agent self;
      match step_variation a with
      | Some v =>
          x ← draw_variable v;
          modify_agent self (fun a => with_step_variable a x)
      | None => ret tt
      end;;
      modify_agent self (fun a => with_missing_desired a false);;
      flows self value_eps;;
      ret tt
  end.
End Engine.

(** The default [value_eps=1e-12] of [step]. *)
Definition value_eps_default : Q := 1 # 1000000000000.

(** ** PlantAgent *)

(** [np.interp(x, [x0, x1], [y0, y1])] *)
Definition interp (x x0 x1 y0 y1 : Q) : Q :=
  if Qle_bool x x0 then y0
  else if Qle_bool x1 x then y1
  else (y1 - y0) / (x1 - x0) * (x - x0) + y0.

(** The ratio of increased CO2 uptake of [_calculate_co2_scale]. *)
Definition uptake_ratio (carbon_fixation : option string) (co2_ppm : Q) : Q :=
  let t_mean := 25 in
  if match carbon_fixation with
     | Some kind => String.eqb kind "c3"
     | None => false
     end
  then
    let tt := (163 - t_mean) / (5 - (1 # 10) * t_mean) in
    let numerator := (co2_ppm - tt) * (350 + 2 * tt) in
    let denominator := (co2_ppm + 2 * tt) * (350 - tt) in
    numerator / denominator
  else 1.

(** The step values before and after the CO2 adjustment, per direction. *)
Record adjustment : Type := mkAdjustment {
  baseline_in : list (string * Q);
  baseline_out : list (string * Q);
  adjusted_in : list (string * Q);
  adjusted_out : list (string * Q);
}.

(** The loop over [self.attrs] that fills [sv_baseline] and [sv_adjusted]. *)
Fixpoint adjust_step_values (agent_type : string)
    (step_values : gmap string (list Q)) (step_num : Z)
    (co2_uptake_ratio transpiration_efficiency_factor : Q)
    (names : list string) (sv : adjustment) : result adjustment :=
  match names with
  | [] => Ok sv
  | attr :: names' =>
      match split_on "_"%char 1 attr with
      | [prefix; currency] =>
          let continue := adjust_step_values agent_type step_values step_num
                            co2_uptake_ratio transpiration_efficiency_factor
                            names' in
          let is_in := String.eqb prefix "in" in
          if negb (is_in || String.eqb prefix "out") then continue sv
          else
            values ← of_option KeyError (step_values !! attr);
            step_value ← py_index values step_num;
            let sv :=
              if is_in
              then mkAdjustment (dict_set (baseline_in sv) currency step_value)
                     (baseline_out sv) (adjusted_in sv) (adjusted_out sv)
              else mkAdjustment (baseline_in sv)
                     (dict_set (baseline_out sv) currency step_value)
                     (adjusted_in sv) (adjusted_out sv) in
            let adjust (x : Q) :=
              if is_in
              then mkAdjustment (baseline_in sv) (baseline_out sv)
                     (dict_set (adjusted_in sv) currency x) (adjusted_out sv)
              else mkAdjustment (baseline_in sv) (baseline_out sv)
                     (adjusted_in sv) (dict_set (adjusted_out sv) currency x) in
            let cu_fields := ["co2"; "fertilizer"; "o2"; "biomass"; agent_type] in
            let te_fields := ["potable"; "h2o"] in
            let exclude := ["in_biomass"; "out_" +:+ agent_type] in
            if existsb (String.eqb attr) exclude then continue sv
            else if existsb (String.eqb currency) cu_fields
            then continue (adjust (step_value * co2_uptake_ratio))
            else if existsb (String.eqb currency) te_fields
            then continue
                   (adjust (step_value * (1 / transpiration_efficiency_factor)))
            else continue sv
      | _ => Raise ValueError
      end
  end.

(** "Remove error proportionally from outputs": the adjusted outputs after
    the correction.  With outputs that sum to zero numpy divides to [inf] or
    [nan]; that case is outside the rationals and every statement below
    excludes it. *)
Definition rebalance (adjusted_in adjusted_out : list (string * Q))
    (value_eps : Q) : list (string * Q) :=
  let net_inputs := Qsum (dict_values adjusted_in) in
  let net_outputs := Qsum (dict_values adjusted_out) in
  let sv_error := net_inputs - net_outputs in
  if Qltb value_eps sv_error then
    map (fun '(currency, value) =>
           let correction := value / net_outputs * sv_error in
           (currency, value + correction))
        adjusted_out
  else adjusted_out.

(** "Convert to scale factors (1 = no change)", for one direction. *)
Definition scale_factors (prefix : string) (baseline adjusted : list (string * Q))
  : list (string * Q) :=
  map (fun '(currency, base) =>
         let attr_name := prefix +:+ "_" +:+ currency in
         match dict_get adjusted currency with
         | Some adj => (attr_name, if Qeq_bool adj 0 then 1 else adj / base)
         | None => (attr_name, 1)
         end)
      baseline.

Section Plant.
Context `{Externals}.

(** The cache of [_calculate_co2_scale]: the uptake ratio and the
    transpiration efficiency factor of the current [model.time]. *)
Definition co2_factors (self : string) (carbon_fixation : option string)
  : M (Q * Q) :=
  cached ← read co2;
  co2_ ← match cached with
         | Some c => ret c
         | None =>
             let c := mkCo2 None 1 1 in
             write (fun m => with_co2 m (Some c));;
             ret c
         end;
  now ← read time;
  if match co2_time co2_ with
     | Some t => String.eqb t now
     | None => false
     end
  then ret (co2_uptake_ratio co2_, transpiration_efficiency_factor co2_)
  else
    ratio ← get_storage_ratio self "co2_ratio_in";
    let co2_ppm := ratio * 1000000 in
    let co2_ppm := Qmax 350 (Qmin 1000 co2_ppm) in
    let co2_uptake_ratio := uptake_ratio carbon_fixation co2_ppm in
    let transpiration_efficiency_factor :=
      interp co2_ppm 350 700 1 (137 # 100) in
    write (fun m =>
             with_co2 m (Some (mkCo2 (Some now) co2_uptake_ratio
                                 transpiration_efficiency_factor)));;
    ret (co2_uptake_ratio, transpiration_efficiency_factor).

(** The adjusted step values of [_calculate_co2_scale] once the error is
    removed from the outputs. *)
Definition co2_adjusted (self : string) (carbon_fixation : option string)
    (step_num : Z) (value_eps : Q) : M adjustment :=
  '(co2_uptake_ratio, transpiration_efficiency_factor) ←
    co2_factors self carbon_fixation;
  a ← get_agent self;
  sv ← lift (adjust_step_values (agent_type (storage a)) (step_values a)
               step_num co2_uptake_ratio transpiration_efficiency_factor
               (dict_keys (attrs (storage a)))
               (mkAdjustment [] [] [] []));
  ret (mkAdjustment (baseline_in sv) (baseline_out sv) (adjusted_in sv)
         (rebalance (adjusted_in sv) (adjusted_out sv) value_eps)).

(** [PlantAgent._calculate_co2_scale] *)
Definition calculate_co2_scale (self : string)
    (carbon_fixation : option string) (step_num : Z) (value_eps : Q)
  : M (list (string * Q)) :=
  sv ← co2_adjusted self carbon_fixation step_num value_eps;
  ret (scale_factors "in" (baseline_in sv) (adjusted_in sv) ++
       scale_factors "out" (baseline_out sv) (adjusted_out sv)).
End Plant.

(** ** Sample configurations *)

(** Externals for running the engine on examples: the generator replays a
    list of samples (and yields 1 once the list is used up), every variation
    variable is 1, all units agree, no custom function is known, the
    objects have no further attribute, and quotients are exact (as those of
    floats are when the exact quotient is a double, which is the case in
    every example). *)
Definition sample_externals : Externals :=
  {| rng := list Q;
     rand := fun r => match r with
                      | [] => (1, [])
                      | x :: r' => (x, r')
                      end;
     get_variable := fun r _ => (1, r);
     rescale := fun _ _ => 1;
     custom_funcs := fun _ => None;
     attribute := fun _ _ => None;
     float_div := Qdiv |}.

(** A storage of [o2] with capacity 100 per instance. *)
Definition o2_storage (name : string) (bal : Q) : StorageAgent :=
  {| agent_type := name;
     amount := 1;
     active := true;
     cause_of_death := None;
     attrs := [("char_capacity_o2", VNum 100)];
     attr_details := {[ "char_capacity_o2" := capacity_detail "kg" ]};
     currency_dict :=
       {[ "o2" := Currency "atmosphere"; "atmosphere" := CurrencyClass ["o2"] ]};
     has_storage := true;
     capacity := {[ "o2" := 100; "atmosphere" := 100 ]};
     balance := {[ "o2" := bal ]} |}.

(** An agent that is only a storage. *)
Definition storage_only (s : StorageAgent) : GeneralAgent :=
  mkAgent s 0 [] [] ∅ ∅ ∅ ∅ ∅ false None 1 false [] [].

(** An agent without storage of its own, with the given attributes. *)
Definition flow_agent (name : string) (n : Z)
    (attributes : list (string * attr_value))
    (details : gmap string attr_detail) : StorageAgent :=
  {| agent_type := name;
     amount := n;
     active := true;
     cause_of_death := None;
     attrs := attributes;
     attr_details := details;
     currency_dict :=
       {[ "o2" := Currency "atmosphere"; "atmosphere" := CurrencyClass ["o2"] ]};
     has_storage := false;
     capacity := ∅;
     balance := ∅ |}.

(** A producer of 8 units of [o2] per step, connected to two tanks. *)
Definition o2_maker : GeneralAgent :=
  mkAgent
    (flow_agent "o2_maker" 1 [("out_o2", VNum 8)]
       {[ "out_o2" := capacity_detail "kg" ]})
    0 [] [("o2", ["tank_a"; "tank_b"])]
    ∅ ∅ {[ "out_o2" := repeat 8 24 ]} ∅ ∅ false None 1 false [] [].

Definition two_tanks : Model (list Q) :=
  {| agents := {[ "o2_maker" := o2_maker;
                  "tank_a" := storage_only (o2_storage "tank_a" 0);
                  "tank_b" := storage_only (o2_storage "tank_b" 0) ]};
     scheduler := ["o2_maker"; "tank_a"; "tank_b"];
     hours_per_step := 1;
     day_length_hours := 24;
     time := "0:00:00";
     storage_ratios := ∅;
     co2 := None;
     random_state := [] |}.

Definition o2_of {R} (m : Model R) (id : string) : option Q :=
  a ← agents m !! id; balance (storage a) !! "o2".

(** Details of an input with a deprivation budget: 5 per instance, one
    unit lost per step. *)
Definition deprive_detail : attr_detail :=
  {| detail_unit := "kg";
     criteria_name := None; criteria_limit := ""; criteria_value := None;
     criteria_buffer := None; requires := []; is_required := None;
     deprive_value := Some 5; delta_per_step := Some 1;
     scope := ""; probability_per_step := 0; magnitude_value := 0;
     magnitude_variation := None; duration_value := None;
     duration_variation := None; duration_delta_per_step := None |}.

(** Four crew members breathing one unit of [o2] each per step, with a
    remaining deprivation budget of 2. *)
Definition crew : GeneralAgent :=
  mkAgent
    (flow_agent "crew" 4 [("in_o2", VNum 1)] {[ "in_o2" := deprive_detail ]})
    0 [("o2", ["air"])] []
    ∅ {[ "in_o2" := 2 ]} {[ "in_o2" := repeat 1 24 ]} ∅ ∅ false None 1 false [] [].

Definition cabin (o2 : Q) : Model (list Q) :=
  {| agents := {[ "crew" := crew;
                  "air" := storage_only (o2_storage "air" o2) ]};
     scheduler := ["crew"; "air"];
     hours_per_step := 1;
     day_length_hours := 24;
     time := "0:00:00";
     storage_ratios := ∅;
     co2 := None;
     random_state := [] |}.

(** Details of a flow gated on the agent's own [o2] balance exceeding 10,
    with a buffer of 2 steps. *)
Definition gate_detail : attr_detail :=
  {| detail_unit := "kg";
     criteria_name := Some "o2"; criteria_limit := ">";
     criteria_value := Some 10; criteria_buffer := Some 2;
     requires := []; is_required := None;
     deprive_value := None; delta_per_step := None;
     scope := ""; probability_per_step := 0; magnitude_value := 0;
     magnitude_variation := None; duration_value := None;
     duration_variation := None; duration_delta_per_step := None |}.

(** A vent releasing 7 units of its own [o2] per step once the gate opens;
    [left] is what remains of the buffer. *)
Definition vent (o2 left : Q) : GeneralAgent :=
  mkAgent
    {| agent_type := "vent";
       amount := 1;
       active := true;
       cause_of_death := None;
       attrs := [("char_capacity_o2", VNum 100); ("out_o2", VNum 7)];
       attr_details := {[ "char_capacity_o2" := capacity_detail "kg";
                          "out_o2" := gate_detail ]};
       currency_dict :=
         {[ "o2" := Currency "atmosphere";
            "atmosphere" := CurrencyClass ["o2"] ]};
       has_storage := true;
       capacity := {[ "o2" := 100; "atmosphere" := 100 ]};
       balance := {[ "o2" := o2 ]} |}
    0 [] [("o2", ["vent"])]
    {[ "out_o2" := left ]} ∅ {[ "out_o2" := repeat 7 24 ]} ∅ ∅
    false None 1 false [] [].

Definition vent_model (o2 left : Q) : Model (list Q) :=
  {| agents := {[ "vent" := vent o2 left ]};
     scheduler := ["vent"];
     hours_per_step := 1;
     day_length_hours := 24;
     time := "0:00:00";
     storage_ratios := ∅;
     co2 := None;
     random_state := [] |}.

Definition buffer_of {R} (m : Model R) (id attr : string) : option Q :=
  a ← agents m !! id; buffer a !! attr.

(** Details of a flow gated on the attribute [growth_rate] of the object
    exceeding 1/4, without buffer. *)
Definition growth_detail : attr_detail :=
  {| detail_unit := "kg";
     criteria_name := Some "growth_rate"; criteria_limit := ">";
     criteria_value := Some (1 # 4); criteria_buffer := None;
     requires := []; is_required := None;
     deprive_value := None; delta_per_step := None;
     scope := ""; probability_per_step := 0; magnitude_value := 0;
     magnitude_variation := None; duration_value := None;
     duration_variation := None; duration_delta_per_step := None |}.

(** A plant releasing 7 units of [o2] per step while it grows. *)
Definition sprout : GeneralAgent :=
  mkAgent
    (flow_agent "sprout" 1 [("out_o2", VNum 7)]
       {[ "out_o2" := growth_detail ]})
    0 [] []
    ∅ ∅ {[ "out_o2" := repeat 7 24 ]} ∅ ∅
    false None 1 false [] [].

Definition nursery : Model (list Q) :=
  {| agents := {[ "sprout" := sprout ]};
     scheduler := ["sprout"];
     hours_per_step := 1;
     day_length_hours := 24;
     time := "0:00:00";
     storage_ratios := ∅;
     co2 := None;
     random_state := [] |}.

(** The sample externals for objects that carry a [growth_rate] of 1/2. *)
Definition plant_externals : Externals :=
  {| rng := list Q;
     rand := rand (Externals := sample_externals);
     get_variable := get_variable (Externals := sample_externals);
     rescale := rescale (Externals := sample_externals);
     custom_funcs := custom_funcs (Externals := sample_externals);
     attribute := fun _ name =>
       if String.eqb name "growth_rate" then Some (VNum (1 # 2)) else None;
     float_div := Qdiv |}.

(** ** Observations *)

(** The age of an agent of the store. *)
Definition age_of {R} (m : Model R) (id : string) : option Q :=
  age <$> agents m !! id.

(** A method leaves the age of agent [id] as it is, however it ends. *)
Definition keeps_age `{Externals} {A} (id : string) (c : M A) : Prop :=
  ∀ m x m', c m = Ok (x, m') → age_of m' id = age_of m id.

(** The same for a method run while the store holds [a] under [owner]. *)
Definition keeps_age_from `{Externals} {A} (id owner : string)
    (a : GeneralAgent) (c : M A) : Prop :=
  ∀ m x m', agents m !! owner = Some a → c m = Ok (x, m') →
            age_of m' id = age_of m id.

(** Details of a mandatory input. *)
Definition mandatory_detail : attr_detail :=
  {| detail_unit := "kg";
     criteria_name := None; criteria_limit := ""; criteria_value := None;
     criteria_buffer := None; requires := []; is_required := Some "mandatory";
     deprive_value := None; delta_per_step := None;
     scope := ""; probability_per_step := 0; magnitude_value := 0;
     magnitude_variation := None; duration_value := None;
     duration_variation := None; duration_delta_per_step := None |}.

(** A consumer of one unit of [o2] per step that dies when the [o2] ratio of
    its storage falls below 8 percent, and for which [o2] is mandatory. *)
Definition breather : GeneralAgent :=
  mkAgent
    (flow_agent "breather" 1
       [("char_threshold_lower_o2", VNum (8 # 100)); ("in_o2", VNum 1)]
       {[ "char_threshold_lower_o2" := capacity_detail "";
          "in_o2" := mandatory_detail ]})
    0 [("o2", ["air"])] []
    ∅ ∅ {[ "in_o2" := repeat 1 24 ]} ∅ ∅ false None 1 false [] [].

(** A cabin whose air holds [o2] units of oxygen, at the cached ratio
    [o2_ratio]. *)
Definition breather_cabin (o2 o2_ratio : Q) : Model (list Q) :=
  {| agents := {[ "breather" := breather;
                  "air" := storage_only (o2_storage "air" o2) ]};
     scheduler := ["breather"; "air"];
     hours_per_step := 1;
     day_length_hours := 24;
     time := "0:00:00";
     storage_ratios := {[ "air" := {[ "o2_ratio" := o2_ratio ]} ]};
     co2 := None;
     random_state := [] |}.

(** The model after one step of an agent, when the step does not raise. *)
Definition after_step `{Externals} (self : string) (m : Model rng) : Model rng :=
  match step self value_eps_default m with
  | Ok (_, m') => m'
  | Raise _ => m
  end.

(** A C3 plant taking one unit of [co2] and giving two units of [o2] per
    step, in air with 400 ppm of [co2]. *)
Definition wheat : GeneralAgent :=
  mkAgent
    (flow_agent "wheat" 1 [("in_co2", VNum 1); ("out_o2", VNum 2)]
       {[ "in_co2" := capacity_detail "kg"; "out_o2" := capacity_detail "kg" ]})
    0 [("co2", ["air"])] [("o2", ["air"])]
    ∅ ∅ {[ "in_co2" := repeat 1 24; "out_o2" := repeat 2 24 ]} ∅ ∅
    false None 1 false [] [].

Definition greenhouse : Model (list Q) :=
  {| agents := {[ "wheat" := wheat;
                  "air" := storage_only (o2_storage "air" 50) ]};
     scheduler := ["wheat"; "air"];
     hours_per_step := 1;
     day_length_hours := 24;
     time := "0:00:00";
     storage_ratios := {[ "air" := {[ "co2_ratio" := 4 # 10000 ]} ]};
     co2 := None;
     random_state := [] |}.

(** The instances of an event type an agent holds: [events.get(type, [])]. *)
Definition instances_of (a : GeneralAgent) (event_type : string)
  : list event_instance :=
  default [] (events a !! event_type).

(** The slots of an event: one for the scope ['group'], [amount] otherwise. *)
Definition event_slots (detail : attr_detail) (a : GeneralAgent) : Z :=
  if String.eqb (scope detail) "group" then 1%Z else amount (storage a).

(** The store holds, for [id], an agent with the event records and the
    amount of [a]. *)
Definition same_events {R} (id : string) (a : GeneralAgent) (m : Model R)
  : Prop :=
  ∃ a', agents m !! id = Some a' ∧ events a' = events a ∧
        event_multipliers a' = event_multipliers a ∧
        amount (storage a') = amount (storage a).

(** Details of an illness that halves the flows of the individual it hits:
    one chance in two per step and empty slot, for 3 hours. *)
Definition illness_detail : attr_detail :=
  {| detail_unit := "";
     criteria_name := None; criteria_limit := ""; criteria_value := None;
     criteria_buffer := None; requires := []; is_required := None;
     deprive_value := None; delta_per_step := None;
     scope := "individual"; probability_per_step := 1 # 2;
     magnitude_value := 1 # 2;
     magnitude_variation := None; duration_value := Some 3;
     duration_variation := None; duration_delta_per_step := Some 1 |}.

(** Three patients, with the instances of illness they carry. *)
Definition patients (ill : list event_instance) : GeneralAgent :=
  mkAgent
    (flow_agent "patients" 3 [("event_illness", VStr "multiplier")]
       {[ "event_illness" := illness_detail ]})
    0 [] [] ∅ ∅ ∅
    (match ill with [] => ∅ | _ => {[ "illness" := ill ]} end)
    (match ill with
     | [] => ∅
     | _ => {[ "illness" :=
                 (Qsum (map magnitude ill) + inject_Z (3 - Z.of_nat (length ill)))
                 / 3 ]}
     end)
    true None 1 false [] [].

(** A sick bay whose generator will yield [samples]. *)
Definition sick_bay (ill : list event_instance) (samples : list Q)
  : Model (list Q) :=
  {| agents := {[ "patients" := patients ill ]};
     scheduler := ["patients"];
     hours_per_step := 1;
     day_length_hours := 24;
     time := "0:00:00";
     storage_ratios := ∅;
     co2 := None;
     random_state := samples |}.

(** The model after the events of an attribute are processed, when that does
    not raise. *)
Definition after_event `{Externals} (self attr : string) (v : attr_value)
    (m : Model rng) : Model rng :=
  match process_event self attr v m with
  | Ok (_, m') => m'
  | Raise _ => m
  end.

(** Two storages that differ at most in their balances. *)
Definition same_but_balance (s s' : StorageAgent) : Prop :=
  agent_type s' = agent_type s ∧ amount s' = amount s ∧
  active s' = active s ∧ cause_of_death s' = cause_of_death s ∧
  attrs s' = attrs s ∧ attr_details s' = attr_details s ∧
  currency_dict s' = currency_dict s ∧ has_storage s' = has_storage s ∧
  capacity s' = capacity s.

(** How the store may evolve: the same agents are there, and each of them
    is related to what it was by [ok]. *)
Definition evolves {R} (ok : string → GeneralAgent → GeneralAgent → Prop)
    (m m' : Model R) : Prop :=
  ∀ id,
    match agents m !! id, agents m' !! id with
    | Some a, Some a' => ok id a a'
    | None, None => True
    | _, _ => False
    end.

(** A method makes the store evolve within [ok], however it ends. *)
Definition within `{Externals} {A}
    (ok : string → GeneralAgent → GeneralAgent → Prop) (c : M A) : Prop :=
  ∀ m x m', c m = Ok (x, m') → evolves ok m m'.

(** The same for a method run while the store holds [a] under [owner]. *)
Definition within_from `{Externals} {A}
    (ok : string → GeneralAgent → GeneralAgent → Prop) (owner : string)
    (a : GeneralAgent) (c : M A) : Prop :=
  ∀ m x m', agents m !! owner = Some a → c m = Ok (x, m') → evolves ok m m'.

(** Changes of an agent a step of [self] may make, one relation per
    guarantee. *)

(** No agent gains instances, and only [self] may lose some. *)
Definition fewer_or_same (self id : string) (a a' : GeneralAgent) : Prop :=
  (amount (storage a') <= amount (storage a))%Z ∧
  (id ≠ self → amount (storage a') = amount (storage a)).

(** An agent other than [self] keeps the bounds of its balances. *)
Definition keeps_bounds (self id : string) (a a' : GeneralAgent) : Prop :=
  id ≠ self → bounded (storage a) → bounded (storage a').

(** What an agent is configured with stays as it is. *)
Definition same_configuration (id : string) (a a' : GeneralAgent) : Prop :=
  agent_type (storage a') = agent_type (storage a) ∧
  attrs (storage a') = attrs (storage a) ∧
  attr_details (storage a') = attr_details (storage a) ∧
  currency_dict (storage a') = currency_dict (storage a) ∧
  capacity (storage a') = capacity (storage a) ∧
  selected_storage_in a' = selected_storage_in a ∧
  selected_storage_out a' = selected_storage_out a ∧
  step_values a' = step_values a.

(** A destroyed agent stays destroyed. *)
Definition stays_destroyed (id : string) (a a' : GeneralAgent) : Prop :=
  active (storage a) = false → active (storage a') = false.

(** An agent that differs from what it was at most in its [buffer]. *)
Definition same_but_buffer (id : string) (a a' : GeneralAgent) : Prop :=
  a' = with_buffer a (buffer a').

(** An agent is destroyed: inactive, with a cause of death, and no longer
    scheduled. *)
Definition destroyed {R} (m : Model R) (id : string) : Prop :=
  (∃ a, agents m !! id = Some a ∧ active (storage a) = false ∧
        is_Some (cause_of_death (storage a))) ∧
  id ∉ scheduler m.
(** * Properties of the storage engine *)

Ltac case_minmax :=
  repeat match goal with
  | |- context [Qmin ?x ?y] =>
      let m := fresh "m" in
      let H := fresh "Hm" in
      pose proof (Q.min_spec x y) as H;
      set (m := Qmin x y) in *; clearbody m;
      destruct H as [[? ?]|[? ?]]
  | |- context [Qmax ?x ?y] =>
      let m := fresh "m" in
      let H := fresh "Hm" in
      pose proof (Q.max_spec x y) as H;
      set (m := Qmax x y) in *; clearbody m;
      destruct H as [[? ?]|[? ?]]
  end.

Lemma Qltb_lt (x y : Q) : Qltb x y = true ↔ x < y.
Proof.
  unfold Qltb. rewrite negb_true_iff.
  destruct (Qle_bool y x) eqn:E.
  - apply Qle_bool_iff in E. split; [discriminate | lra].
  - split; [intros _ | reflexivity].
    destruct (Qlt_le_dec x y) as [H|H]; [exact H |].
    apply Qle_bool_iff in H. congruence.
Qed.

Lemma Qltb_ge (x y : Q) : Qltb x y = false ↔ y <= x.
Proof.
  unfold Qltb. rewrite negb_false_iff. apply Qle_bool_iff.
Qed.

(** C1, at its own example: adding 150 to an empty storage of capacity 100
    leaves balance 100, as claimed and as the docstring of [increment]
    promises (the amount incremented), but the entry returned is -100 where
    the amount applied is 100. *)
Lemma increment_positive_returns_negated_delta :
  ∃ s' d,
    increment o2_tank "o2" 150 = Ok (s', [("o2", d)]) ∧
    balance s' !! "o2" = Some 100 ∧
    d == -100 ∧
    applied_amount 150 (100 * inject_Z (amount o2_tank)) 0 == 100 ∧
    ¬ d == applied_amount 150 (100 * inject_Z (amount o2_tank)) 0.
Proof.
  eexists _, _. split; [vm_compute; reflexivity |].
  repeat split; try (vm_compute; congruence).
Qed.

(** The positive branch of [increment] in general: the balance becomes
    [min(old + a, capacity * amount)] and the single entry returned is
    [old - new], the negation of the amount applied. *)
Theorem increment_positive (s : StorageAgent) (c cls : string) (a cap bal : Q) :
  currency_dict s !! c = Some (Currency cls) →
  capacity s !! c = Some cap →
  balance s !! c = Some bal →
  0 < a →
  ∃ new,
    increment s c a = Ok (set_balance s c new, [(c, bal - new)]) ∧
    balance (set_balance s c new) !! c = Some new ∧
    new == Qmin (bal + a) (cap * inject_Z (amount s)) ∧
    bal - new == - Qmin a (cap * inject_Z (amount s) - bal).
Proof.
  intros Hd Hc Hb Ha.
  exists (Qmin (bal + a) (cap * inject_Z (amount s))).
  split; [| split; [| split]].
  - unfold increment. apply Qltb_lt in Ha. rewrite Ha.
    rewrite Hd. cbn. rewrite Hc. cbn. rewrite Hb. reflexivity.
  - cbn. apply lookup_insert_eq.
  - reflexivity.
  - case_minmax; lra.
Qed.

Lemma increment_positive_witness :
  ∃ new,
    increment o2_tank "o2" 150 = Ok (set_balance o2_tank "o2" new, [("o2", 0 - new)]) ∧
    balance (set_balance o2_tank "o2" new) !! "o2" = Some new ∧
    new == Qmin (0 + 150) (100 * inject_Z (amount o2_tank)) ∧
    0 - new == - Qmin 150 (100 * inject_Z (amount o2_tank) - 0).
Proof.
  apply (increment_positive o2_tank "o2" "atmosphere" 150 100 0);
    [reflexivity | reflexivity | reflexivity | reflexivity].
Defined.

(** ** Dictionaries *)

Lemma dict_get_set_eq {V} (d : list (string * V)) k v :
  dict_get (dict_set d k v) k = Some v.
Proof.
  induction d as [|[k' v'] d IH]; cbn.
  - by rewrite String.eqb_refl.
  - destruct (String.eqb k k') eqn:E; cbn; rewrite E; [done | exact IH].
Qed.

Lemma dict_get_set_ne {V} (d : list (string * V)) k k' v :
  k ≠ k' → dict_get (dict_set d k v) k' = dict_get d k'.
Proof.
  intros Hne. induction d as [|[k0 v0] d IH]; cbn.
  - destruct (String.eqb k' k) eqn:E; [| done].
    apply String.eqb_eq in E. congruence.
  - destruct (String.eqb k k0) eqn:E; cbn.
    + apply String.eqb_eq in E. subst k0.
      destruct (String.eqb k' k) eqn:E'; [| done].
      apply String.eqb_eq in E'. congruence.
    + by rewrite IH.
Qed.

Lemma dict_get_keys {V} (d : list (string * V)) k :
  dict_get d k = None ↔ k ∉ dict_keys d.
Proof.
  induction d as [|[k' v'] d IH]; cbn.
  - split; [intros _; apply not_elem_of_nil | done].
  - rewrite not_elem_of_cons. destruct (String.eqb k k') eqn:E.
    + apply String.eqb_eq in E. split; [done | intros [? _]; done].
    + apply String.eqb_neq in E. rewrite IH. tauto.
Qed.

Lemma dict_keys_set_new {V} (d : list (string * V)) k v :
  k ∉ dict_keys d → dict_keys (dict_set d k v) = dict_keys d ++ [k].
Proof.
  induction d as [|[k' v'] d IH]; cbn; [done |].
  rewrite not_elem_of_cons. intros [Hne Hni].
  apply String.eqb_neq in Hne. rewrite Hne. cbn. f_equal. by apply IH.
Qed.

Lemma dict_keys_set_old {V} (d : list (string * V)) k v :
  k ∈ dict_keys d → dict_keys (dict_set d k v) = dict_keys d.
Proof.
  induction d as [|[k' v'] d IH]; cbn.
  - intros H. by apply elem_of_nil in H.
  - intros H. destruct (String.eqb k k') eqn:E; cbn; [done |].
    apply String.eqb_neq in E. apply elem_of_cons in H as [?|H]; [done |].
    f_equal. by apply IH.
Qed.

Lemma dict_keys_set_NoDup {V} (d : list (string * V)) k v :
  NoDup (dict_keys d) → NoDup (dict_keys (dict_set d k v)).
Proof.
  intros Hnd. destruct (decide (k ∈ dict_keys d)) as [Hin|Hni].
  - by rewrite dict_keys_set_old.
  - rewrite dict_keys_set_new by done.
    apply NoDup_app. split; [done |]. split; [| apply NoDup_singleton].
    intros x Hx Hx'. apply list_elem_of_singleton in Hx'. by subst.
Qed.

(** ** Views *)

Lemma view_class_fold (s : StorageAgent) (cs : list string) acc :
  NoDup (dict_keys acc) → reads_balance s acc →
  let d := fold_left
             (fun acc c =>
                match balance s !! c with
                | Some b => dict_set acc c b
                | None => acc
                end) cs acc in
  NoDup (dict_keys d) ∧ reads_balance s d.
Proof.
  revert acc. induction cs as [|c cs IH]; intros acc Hnd Hrb; cbn; [done |].
  apply IH.
  - destruct (balance s !! c); [by apply dict_keys_set_NoDup | done].
  - destruct (balance s !! c) as [b|] eqn:Hb; [| done].
    intros c' b'. destruct (decide (c = c')) as [<- |Hne].
    + rewrite dict_get_set_eq. congruence.
    + rewrite dict_get_set_ne by done. apply Hrb.
Qed.

Lemma view_members (s : StorageAgent) v members :
  view s v = Ok members →
  NoDup (dict_keys members) ∧ reads_balance s members.
Proof.
  unfold view. destruct (currency_dict s !! v) as [[cls|cs|]|]; try done.
  - destruct (balance s !! v) as [b|] eqn:Hb; cbn; [| done].
    intros [= <-]. split.
    + cbn. apply NoDup_singleton.
    + intros c b'. cbn. destruct (String.eqb c v) eqn:E; [| done].
      apply String.eqb_eq in E. congruence.
  - intros [= <-]. apply view_class_fold; [apply NoDup_nil_2 | done].
Qed.

Lemma dict_get_In_keys {V} (d : list (string * V)) c :
  c ∈ dict_keys d → ∃ v, dict_get d c = Some v.
Proof.
  intros Hin. destruct (dict_get d c) as [v|] eqn:E; [by exists v |].
  by apply dict_get_keys in E.
Qed.

(** ** The negative branch *)

Lemma ratios_of_spec (s : StorageAgent) total keys :
  (∀ c, c ∈ keys → is_Some (balance s !! c)) →
  ∃ ratios,
    ratios_of s total keys = Ok ratios ∧
    ∀ c b, c ∈ keys → balance s !! c = Some b →
           dict_get ratios c = Some (b / total).
Proof.
  induction keys as [|k keys IH]; intros Hk.
  - exists []. split; [done |]. intros c b Hc. by apply elem_of_nil in Hc.
  - destruct IH as (rs & Hrs & Hget).
    { intros c Hc. apply Hk. by right. }
    destruct (Hk k) as [bk Hbk]; [by left |].
    exists ((k, bk / total) :: rs). split.
    + cbn. rewrite Hbk. cbn. rewrite Hrs. done.
    + intros c b Hc Hb. cbn. destruct (String.eqb c k) eqn:E.
      * apply String.eqb_eq in E. subst. congruence.
      * apply String.eqb_neq in E. apply elem_of_cons in Hc as [?|Hc]; [done |].
        by apply Hget.
Qed.

Lemma decrement_loop_spec (a : Q) ratios keys :
  ∀ s flow,
    NoDup keys →
    (∀ c, c ∈ keys → c ∉ dict_keys flow) →
    (∀ c, c ∈ keys → is_Some (balance s !! c) ∧ is_Some (dict_get ratios c)) →
    ∃ s' flow',
      decrement_loop s a ratios keys flow = Ok (s', flow') ∧
      amount s' = amount s ∧ capacity s' = capacity s ∧
      currency_dict s' = currency_dict s ∧ agent_type s' = agent_type s ∧
      dict_keys flow' = dict_keys flow ++ keys ∧
      (∀ c b r, c ∈ keys → balance s !! c = Some b → dict_get ratios c = Some r →
         balance s' !! c = Some (Qmax (b + a * r) 0) ∧
         dict_get flow' c = Some (b - Qmax (b + a * r) 0)) ∧
      (∀ c, c ∉ keys →
         balance s' !! c = balance s !! c ∧ dict_get flow' c = dict_get flow c).
Proof.
  induction keys as [|k keys IH]; intros s flow Hnd Hfresh Hk.
  - exists s, flow. cbn. rewrite app_nil_r.
    do 6 (split; [done |]). split; [| done].
    intros c b r Hc. by apply elem_of_nil in Hc.
  - apply NoDup_cons in Hnd as [Hkni Hnd].
    destruct (Hk k) as [[bk Hbk] [rk Hrk]]; [by left |].
    set (new := Qmax (bk + a * rk) 0).
    destruct (IH (set_balance s k new) (dict_set flow k (bk - new)))
      as (s' & flow' & Hrun & Ham & Hcap & Hcd & Hat & Hkeys & Hin & Hout).
    { done. }
    { intros c Hc. rewrite dict_keys_set_new by (apply Hfresh; by left).
      rewrite elem_of_app, list_elem_of_singleton.
      intros [?| ->]; [| done]. eapply Hfresh; [by right | done]. }
    { intros c Hc. split; [| apply Hk; by right].
      cbn. destruct (decide (k = c)) as [-> |Hne].
      - rewrite lookup_insert_eq. done.
      - rewrite lookup_insert_ne by done. apply Hk. by right. }
    exists s', flow'.
    split; [cbn; rewrite Hrk; cbn; rewrite Hbk; cbn; exact Hrun |].
    do 4 (split; [congruence || done |]).
    split; [| split].
    + rewrite Hkeys, dict_keys_set_new by (apply Hfresh; by left).
      by rewrite <- app_assoc.
    + intros c b r Hc Hb Hr. apply elem_of_cons in Hc as [-> |Hc].
      * destruct (Hout k Hkni) as [-> ->]. cbn.
        rewrite lookup_insert_eq, dict_get_set_eq.
        assert (b = bk) as -> by congruence.
        assert (r = rk) as -> by congruence. done.
      * assert (k ≠ c) as Hne by congruence.
        apply (Hin c b r Hc); [| done].
        cbn. by rewrite lookup_insert_ne.
    + intros c Hc. apply not_elem_of_cons in Hc as [Hne Hni].
      destruct (Hout c Hni) as [-> ->]. cbn.
      rewrite lookup_insert_ne by done. by rewrite dict_get_set_ne.
Qed.

Lemma increment_negative_branch (s : StorageAgent) v a members :
  a < 0 → view s v = Ok members →
  let total := Qsum (dict_values members) in
  (total <= 0 →
     increment s v a = Ok (s, map (fun c => (c, 0)) (dict_keys members))) ∧
  (0 < total →
     ∃ s' flow,
       increment s v a = Ok (s', flow) ∧
       amount s' = amount s ∧ capacity s' = capacity s ∧
       dict_keys flow = dict_keys members ∧
       (∀ c b, dict_get members c = Some b →
          balance s' !! c = Some (Qmax (b + a * (b / total)) 0) ∧
          dict_get flow c = Some (b - Qmax (b + a * (b / total)) 0)) ∧
       (∀ c, dict_get members c = None → balance s' !! c = balance s !! c)).
Proof.
  intros Ha Hview total.
  destruct (view_members s v members Hview) as [Hnd Hrb].
  assert (Qltb 0 a = false) as Hpos by (apply Qltb_ge; lra).
  assert (Qltb a 0 = true) as Hneg by (by apply Qltb_lt).
  unfold increment. rewrite Hpos, Hneg, Hview. cbn. fold total.
  split; intros Htot.
  - apply Qle_bool_iff in Htot. by rewrite Htot.
  - assert (Qle_bool total 0 = false) as ->.
    { destruct (Qle_bool total 0) eqn:E; [| done].
      apply Qle_bool_iff in E. lra. }
    assert (∀ c, c ∈ dict_keys members → is_Some (balance s !! c)) as Hbal.
    { intros c Hc. destruct (dict_get_In_keys members c Hc) as [b Hb].
      exists b. by apply Hrb. }
    destruct (ratios_of_spec s total (dict_keys members) Hbal)
      as (ratios & -> & Hratio). cbn.
    destruct (decrement_loop_spec a ratios (dict_keys members) s [])
      as (s' & flow & -> & Ham & Hcap & _ & _ & Hkeys & Hin & Hout).
    { done. }
    { intros c _. apply not_elem_of_nil. }
    { intros c Hc. split; [by apply Hbal |].
      destruct (Hbal c Hc) as [b Hb]. exists (b / total). by apply Hratio. }
    exists s', flow. do 4 (split; [done |]). split.
    + intros c b Hget.
      assert (c ∈ dict_keys members) as Hc.
      { destruct (decide (c ∈ dict_keys members)) as [|Hni]; [done |].
        apply dict_get_keys in Hni. congruence. }
      apply Hin; [done | by apply Hrb | apply Hratio; [done | by apply Hrb]].
    + intros c Hnone. apply dict_get_keys in Hnone. by apply Hout.
Qed.

(** C2: a negative increment over a currency or currency-class view removes
    from every member [c] the share [a * balance[c] / total], floors the new
    balance at 0 and returns the amount removed per member; with a total of 0
    or less nothing changes and every member is reported with 0. *)
Theorem increment_negative (s : StorageAgent) (v : string) (a : Q)
    (members : list (string * Q)) :
  a < 0 → view s v = Ok members →
  let total := Qsum (dict_values members) in
  (total <= 0 →
     increment s v a = Ok (s, map (fun c => (c, 0)) (dict_keys members))) ∧
  (0 < total →
     ∃ s' flow,
       increment s v a = Ok (s', flow) ∧
       dict_keys flow = dict_keys members ∧
       (∀ c b, dict_get members c = Some b →
          ∃ new,
            new = Qmax (b + a * (b / total)) 0 ∧ 0 <= new ∧
            balance s' !! c = Some new ∧
            dict_get flow c = Some (b - new)) ∧
       (∀ c, dict_get members c = None → balance s' !! c = balance s !! c)).
Proof.
  intros Ha Hview total.
  destruct (increment_negative_branch s v a members Ha Hview) as [H0 Hpos].
  split; [exact H0 |]. intros Htot.
  destruct (Hpos Htot) as (s' & flow & Hinc & _ & _ & Hkeys & Hin & Hout).
  exists s', flow. do 2 (split; [done |]). split; [| done].
  intros c b Hget. eexists. split; [reflexivity |].
  split; [apply Q.le_max_r |]. by apply Hin.
Qed.

Lemma increment_negative_witness :
  ∃ s' flow,
    increment water_tank "water" (-20) = Ok (s', flow) ∧
    dict_keys flow = ["potable"; "grey"] ∧
    (∀ c b, dict_get [("potable", 30); ("grey", 10)] c = Some b →
       ∃ new,
         new = Qmax (b + (-20) * (b / (30 + (10 + 0)))) 0 ∧ 0 <= new ∧
         balance s' !! c = Some new ∧
         dict_get flow c = Some (b - new)) ∧
    (∀ c, dict_get [("potable", 30); ("grey", 10)] c = None →
       balance s' !! c = balance water_tank !! c).
Proof.
  refine (proj2 (increment_negative water_tank "water" (-20)
                   [("potable", 30); ("grey", 10)] _ _) _);
    [reflexivity | vm_compute; reflexivity | reflexivity].
Defined.

(** The water-class example of C2: 20 units taken from potable = 30 and
    grey = 10 remove 15 and 5. *)
Example water_class_decrement :
  ∃ s' p g bp bg,
    increment water_tank "water" (-20) = Ok (s', [("potable", p); ("grey", g)]) ∧
    p == 15 ∧ g == 5 ∧
    balance s' !! "potable" = Some bp ∧ bp == 15 ∧
    balance s' !! "grey" = Some bg ∧ bg == 5.
Proof.
  eexists _, _, _, _, _.
  split; [vm_compute; reflexivity |].
  repeat split; vm_compute; reflexivity.
Qed.

(** ** The balance invariant *)

Lemma share_nonpositive (a b total : Q) :
  a < 0 → 0 <= b → 0 < total → a * (b / total) <= 0.
Proof.
  intros Ha Hb Ht.
  assert (0 <= b / total) by (apply Qle_shift_div_l; lra).
  nra.
Qed.

Lemma increment_bounded (s s' : StorageAgent) v a flow :
  bounded s → increment s v a = Ok (s', flow) → bounded s'.
Proof.
  intros Hinv Hinc.
  destruct (Qlt_le_dec 0 a) as [Hpos|Hle].
  - (* positive: a single currency, clamped at its capacity *)
    unfold increment in Hinc. apply Qltb_lt in Hpos as Hb. rewrite Hb in Hinc.
    destruct (currency_dict s !! v) as [[cls| |]|]; try done. cbn in Hinc.
    destruct (capacity s !! v) as [cap|] eqn:Hcap; [| done]. cbn in Hinc.
    destruct (balance s !! v) as [bal|] eqn:Hbal; [| done]. cbn in Hinc.
    injection Hinc as <- _.
    intros c cap' b Hc Hbc. cbn in *.
    destruct (decide (v = c)) as [<- |Hne].
    + rewrite lookup_insert_eq in Hbc. injection Hbc as <-.
      assert (cap' = cap) as -> by congruence.
      destruct (Hinv v cap bal Hcap Hbal). case_minmax; lra.
    + rewrite lookup_insert_ne in Hbc by done. by apply (Hinv c).
  - destruct (Qlt_le_dec a 0) as [Hneg|Hge].
    + (* negative: proportional split over the view *)
      destruct (view s v) as [members|e] eqn:Hview.
      2:{ unfold increment in Hinc.
          apply Qltb_ge in Hle. apply Qltb_lt in Hneg.
          rewrite Hle, Hneg, Hview in Hinc. done. }
      destruct (increment_negative_branch s v a members Hneg Hview)
        as [Hzero Hsplit].
      destruct (Qlt_le_dec 0 (Qsum (dict_values members))) as [Htot|Htot].
      * destruct (Hsplit Htot) as (s1 & flow1 & Hinc1 & Ham & Hcp & _ & Hin & Hout).
        assert (s1 = s') as -> by congruence.
        intros c cap b Hc Hbc. rewrite Ham. rewrite Hcp in Hc.
        destruct (dict_get members c) as [b0|] eqn:Hget.
        -- destruct (Hin c b0 Hget) as [Hnew _].
           assert (balance s !! c = Some b0) as Hb0
               by (by apply (view_members s v members Hview)).
           destruct (Hinv c cap b0 Hc Hb0) as [H0 Hcapb].
           pose proof (share_nonpositive a b0 _ Hneg H0 Htot).
           assert (b = Qmax (b0 + a * (b0 / Qsum (dict_values members))) 0)
             as -> by congruence.
           case_minmax; lra.
        -- rewrite (Hout c Hget) in Hbc. by apply (Hinv c).
      * rewrite (Hzero Htot) in Hinc. by injection Hinc as <- _.
    + (* zero: nothing happens *)
      unfold increment in Hinc.
      apply Qltb_ge in Hle, Hge. rewrite Hle, Hge in Hinc.
      by injection Hinc as <- _.
Qed.

(** C3: the bounds [0 <= balance[c] <= capacity[c] * amount] on every
    currency with declared capacity survive any finite sequence of
    [increment] calls, whatever the views and the signs of the amounts. *)
Theorem increments_bounded (s : StorageAgent) (calls : list (string * Q)) :
  bounded s → bounded (increments s calls).
Proof.
  revert s. induction calls as [|[v a] calls IH]; intros s Hinv; cbn; [done |].
  destruct (increment s v a) as [[s' flow]|e] eqn:Hinc.
  - apply IH. by eapply increment_bounded.
  - by apply IH.
Qed.

Lemma water_tank_bounded : bounded water_tank.
Proof.
  intros c cap b Hc Hb. unfold water_tank in *. cbn in *.
  destruct (decide (c = "potable")) as [-> |Hp];
    [| destruct (decide (c = "grey")) as [-> |Hg]];
    simplify_map_eq; split; discriminate.
Qed.

Lemma increments_bounded_witness :
  bounded (increments water_tank
             [("potable", 150); ("water", -20); ("grey", 0); ("water", 7)]).
Proof.
  apply (increments_bounded water_tank). exact water_tank_bounded.
Defined.

(** * Properties of the exchange engine *)

#[local] Arguments Qfloor : simpl never.
#[local] Arguments Qdiv : simpl never.
#[local] Arguments Qmult : simpl never.
#[local] Arguments Qplus : simpl never.
#[local] Arguments Qminus : simpl never.
#[local] Arguments Qopp : simpl never.
#[local] Arguments Qmax : simpl never.
#[local] Arguments Qmin : simpl never.
#[local] Arguments inject_Z : simpl never.

Ltac unfold_M :=
  repeat (progress unfold mbind, M_bind, bind, mret, M_ret, ret, lift, read,
            write, raise, modify_agent, set_agent, get_agent in *).

Section Store.
Context `{Externals}.

Lemma modify_agent_run (self : string) (f : GeneralAgent → GeneralAgent)
    (m : Model rng) (a : GeneralAgent) :
  agents m !! self = Some a →
  modify_agent self f m = Ok (tt, with_agents m (<[self := f a]> (agents m))).
Proof. intros Ha. unfold_M. by rewrite Ha. Qed.

Lemma kill_run (self reason : string) (m : Model rng) (a : GeneralAgent) :
  agents m !! self = Some a →
  kill self reason m =
    Ok (tt,
        with_scheduler
          (with_agents m
             (<[self := with_storage a (mark_destroyed (storage a) reason)]>
                (agents m)))
          (List.filter (fun id => negb (String.eqb id self)) (scheduler m))).
Proof.
  intros Ha. unfold kill.
  unfold mbind at 1. unfold M_bind, bind.
  by rewrite (modify_agent_run _ _ _ _ Ha).
Qed.
End Store.

Lemma Qfloor_nonneg (x : Q) : 0 <= x → (0 <= Qfloor x)%Z.
Proof.
  intros Hx. change 0%Z with (Qfloor 0). by apply Qfloor_resp_le.
Qed.

Lemma Qdiv_nonneg (x y : Q) : 0 <= x → 0 < y → 0 <= x / y.
Proof. intros Hx Hy. apply Qle_shift_div_l; lra. Qed.

Section Deprive.
Context `{Externals}.

(** The quotient of floats keeps the sign: a number that is not negative
    divided by a positive one is not negative. *)
Hypothesis float_div_nonneg :
  ∀ x y : Q, 0 <= x → 0 < y → 0 <= float_div x y.

(** C4: with a deficit on an attribute that carries a deprivation budget,
    [floor(available / target per instance)] instances are satisfied and
    the exchanged quantity is that count times the target per instance;
    of the others, [min(amount - satisfied, floor(max(budget, 0) / rate))]
    survive and each costs the budget one rate, the rest leave [amount];
    the agent is killed exactly when [amount] reaches 0.  Without deficit
    the budget gains the deprive value, up to deprive value times
    [amount].  The two quotients are those of floats. *)
Theorem deprive_budget (self attr currency : string) (detail : attr_detail)
    (m : Model rng) (a : GeneralAgent)
    (available_value step_mag dv delta budget : Q) :
  agents m !! self = Some a →
  deprive_value detail = Some dv → 0 < dv →
  delta_per_step detail = Some delta → 0 < delta →
  deprive a !! attr = Some budget →
  0 < step_mag → 0 <= available_value → (0 <= amount (storage a))%Z →
  let n_satisfied := Qfloor (float_div available_value step_mag) in
  let n_survive :=
    Z.min (amount (storage a) - n_satisfied)
      (Qfloor (float_div (Qmax budget 0) delta)) in
  (∀ actual_value,
     ∃ c m' a',
       update_deprive self attr detail currency true
         available_value actual_value step_mag m
       = Ok ((c, inject_Z n_satisfied * step_mag), m') ∧
       agents m' !! self = Some a' ∧
       amount (storage a')
       = (amount (storage a)
          - (amount (storage a) - n_satisfied - n_survive))%Z ∧
       (0 <= amount (storage a') <= amount (storage a))%Z ∧
       deprive a' !! attr = Some (budget - delta * inject_Z n_survive) ∧
       (amount (storage a') = 0%Z →
          c = Return ∧ active (storage a') = false ∧
          is_Some (cause_of_death (storage a'))) ∧
       (amount (storage a') ≠ 0%Z →
          c = Next ∧ active (storage a') = active (storage a) ∧
          cause_of_death (storage a') = cause_of_death (storage a))) ∧
  (∀ actual_value,
     ∃ m' a',
       update_deprive self attr detail currency false
         available_value actual_value step_mag m
       = Ok ((Next, actual_value), m') ∧
       agents m' !! self = Some a' ∧
       storage a' = storage a ∧
       deprive a' !! attr =
         Some (Qmin (dv * inject_Z (amount (storage a))) (budget + dv))).
Proof.
  intros Ha Hdv Hdvpos Hdelta Hdeltapos Hbudget Hmag Hav Hamount
    n_satisfied n_survive.
  assert (or_default (deprive_value detail) 0 = dv) as Hor.
  { rewrite Hdv. cbn. destruct (Qeq_bool dv 0) eqn:E; [| done].
    apply Qeq_bool_iff in E. lra. }
  assert (Qltb 0 dv = true) as Hlt by (by apply Qltb_lt).
  split.
  - intros actual_value.
    assert (0 <= n_satisfied)%Z as Hsat
        by (by apply Qfloor_nonneg, float_div_nonneg).
    assert (0 <= Qfloor (float_div (Qmax budget 0) delta))%Z as Hsurv.
    { apply Qfloor_nonneg, float_div_nonneg; [| done].
      apply Q.le_max_r. }
    assert (Qeq_bool step_mag 0 = false) as Hm0.
    { destruct (Qeq_bool step_mag 0) eqn:E; [| done].
      apply Qeq_bool_iff in E. lra. }
    assert (Qeq_bool delta 0 = false) as Hd0.
    { destruct (Qeq_bool delta 0) eqn:E; [| done].
      apply Qeq_bool_iff in E. lra. }
    unfold update_deprive, floor_div. rewrite Hor, Hlt, Hm0, Hdelta.
    cbn [andb].
    unfold_M. rewrite Ha. cbn. rewrite Hbudget. cbn. rewrite Hd0.
    fold n_satisfied. fold n_survive.
    set (new_amount :=
           (amount (storage a)
            - (amount (storage a) - n_satisfied - n_survive))%Z).
    assert (0 <= new_amount <= amount (storage a))%Z as Hnew
        by (unfold new_amount, n_survive; lia).
    destruct (new_amount <=? 0)%Z eqn:Hle.
    + apply Z.leb_le in Hle.
      erewrite kill_run by (cbn; apply lookup_insert_eq).
      eexists _, _, _. split; [reflexivity |]. cbn.
      rewrite lookup_insert_eq. split; [reflexivity |]. cbn.
      rewrite lookup_insert_eq.
      repeat split; try done; try lia.
      all: intros Hne; exfalso; lia.
    + apply Z.leb_gt in Hle.
      eexists _, _, _. split; [reflexivity |]. cbn.
      rewrite lookup_insert_eq. split; [reflexivity |]. cbn.
      rewrite lookup_insert_eq.
      repeat split; try done; try lia.
      all: intros Hz; exfalso; lia.
  - intros actual_value.
    unfold update_deprive. rewrite Hor, Hlt. cbn [andb].
    unfold_M. rewrite Ha. cbn. rewrite Hbudget. cbn.
    eexists _, _. split; [reflexivity |]. cbn.
    rewrite lookup_insert_eq. split; [reflexivity |]. cbn.
    rewrite lookup_insert_eq. done.
Qed.
End Deprive.

Lemma deprive_budget_witness :
  ∃ c m' a',
    update_deprive (H := sample_externals) "crew" "in_o2" deprive_detail "o2"
      true (3 # 2) 4 1 (cabin (3 # 2))
    = Ok ((c, inject_Z 1 * 1), m') ∧
    agents m' !! "crew" = Some a' ∧
    amount (storage a') = 3%Z ∧
    deprive a' !! "in_o2" = Some (2 - 1 * inject_Z 2) ∧
    c = Next.
Proof.
  destruct (deprive_budget (H := sample_externals) Qdiv_nonneg
              "crew" "in_o2" "o2"
              deprive_detail (cabin (3 # 2)) crew (3 # 2) 1 5 1 2)
    as [Hdeficit _];
    [reflexivity | reflexivity | reflexivity | reflexivity | reflexivity
    | reflexivity | reflexivity | discriminate | discriminate |].
  destruct (Hdeficit 4) as (c & m' & a' & Hrun & Ha' & Ham & _ & Hdep & _ & Hlive).
  exists c, m', a'. repeat split; try assumption.
  apply Hlive. rewrite Ham. discriminate.
Defined.

(** A run of the deprive block: with a supply of 3/2 for four crew members
    and a budget of 2, three of the four are left. *)
Example deprive_budget_run :
  ∃ m' a',
    update_deprive (H := sample_externals) "crew" "in_o2" deprive_detail "o2"
      true (3 # 2) (1 * inject_Z 4) 1 (cabin (3 # 2))
    = Ok ((Next, inject_Z 1 * 1), m') ∧
    agents m' !! "crew" = Some a' ∧
    amount (storage a') = 3%Z ∧ active (storage a') = true.
Proof.
  eexists _, _. split; [vm_compute; reflexivity |].
  split; [vm_compute; reflexivity |]. split; reflexivity.
Qed.

(** ** The criteria gate *)

Section Gate.
Context `{Externals}.

Lemma get_storage_ratio_reads (self cr_name : string) (m m' : Model rng) x :
  get_storage_ratio self cr_name m = Ok (x, m') → m' = m.
Proof.
  unfold get_storage_ratio. unfold_M.
  repeat match goal with
  | |- context [if ?b then _ else _] => destruct b
  | |- context [match agents m !! ?k with _ => _ end] =>
      destruct (agents m !! k); cbn
  | |- context [match of_option ?e ?o with _ => _ end] =>
      destruct o; cbn
  end; try discriminate; by intros [= _ ->].
Qed.

Lemma criteria_source_reads (self cr_name : string) (m m' : Model rng) x :
  criteria_source self cr_name m = Ok (x, m') → m' = m.
Proof.
  unfold criteria_source. unfold_M.
  destruct (agents m !! self) as [a|]; [| done].
  destruct (holder_get (storage a) cr_name); [by intros [= _ ->] |].
  destruct (attribute a cr_name); [by intros [= _ ->] |].
  destruct (get_storage_ratio self cr_name m) as [[ratio m1]|] eqn:Hratio;
    [| done].
  apply get_storage_ratio_reads in Hratio. by intros [= _ <-].
Qed.

(** The criteria is compared on an attribute of the object ([growth_rate]
    of a plant) when the object has it, not on a storage ratio. *)
Lemma criteria_source_attribute (self cr_name : string) (m : Model rng)
    (a : GeneralAgent) (v : attr_value) :
  agents m !! self = Some a →
  holder_get (storage a) cr_name = None →
  attribute a cr_name = Some v →
  criteria_source self cr_name m = Ok (v, m).
Proof.
  intros Ha Hget Hattr. unfold criteria_source. unfold_M.
  by rewrite Ha, Hget, Hattr.
Qed.

(** C5 (amended): on a flow with a criteria, a failing comparison
    suppresses the flow at once (step value 0) and refills a configured
    buffer to its size; a passing comparison consumes one unit of the
    buffer and still suppresses the flow while a buffer is configured and
    some of it is left, and is a pass-through to the curve value
    otherwise. *)
Theorem criteria_gate (self attr pre cur cr_name : string) (step_num : Z)
    (m : Model rng) (a : GeneralAgent) (detail : attr_detail)
    (source : attr_value) (holds : bool) :
  split_on "_"%char 1 attr = [pre; cur] →
  agents m !! self = Some a →
  attr_details (storage a) !! attr = Some detail →
  nonempty (criteria_name detail) = Some cr_name →
  criteria_source self cr_name m = Ok (source, m) →
  let cr_value := or_default (criteria_value detail) 0 in
  let cr_buffer := or_default (criteria_buffer detail) 0 in
  let left := default 0 (buffer a !! attr) in
  let with_left (x : Q) :=
    with_agents m (<[self := with_buffer a (<[attr := x]> (buffer a))]> (agents m)) in
  criteria_holds (criteria_limit detail) source cr_value = Ok holds →
  (holds = false →
     get_step_value self attr step_num m
     = Ok (0, if Qltb 0 cr_buffer then with_left cr_buffer else m)) ∧
  (holds = true → 0 < cr_buffer → 0 < left →
     get_step_value self attr step_num m = Ok (0, with_left (left - 1))) ∧
  (holds = true → ¬ (0 < cr_buffer ∧ 0 < left) →
     get_step_value self attr step_num m = curve_lookup a attr step_num m).
Proof.
  intros Hattr Ha Hd Hname Hsrc cr_value cr_buffer left with_left Hopp.
  eassert (get_step_value self attr step_num m = _) as Hrun.
  { unfold get_step_value. rewrite Hattr.
    unfold mbind at 1. unfold M_bind, bind. unfold get_agent at 1. rewrite Ha.
    unfold mbind at 1. unfold M_bind, bind, lift. rewrite Hd. cbn [of_option].
    rewrite Hname.
    unfold mbind at 1. unfold M_bind, bind. rewrite Hsrc.
    fold cr_value.
    unfold mbind at 1. unfold M_bind, bind, lift. rewrite Hopp.
    fold cr_buffer left. reflexivity. }
  rewrite Hrun. clear Hrun.
  split; [| split].
  - intros ->.
    destruct (Qltb 0 cr_buffer) eqn:Hb.
    + unfold mbind, M_bind, bind.
      by rewrite (modify_agent_run _ _ _ _ Ha).
    + done.
  - intros -> Hb Hl. apply Qltb_lt in Hb, Hl. rewrite Hb, Hl. cbn [andb].
    unfold mbind, M_bind, bind.
    by rewrite (modify_agent_run _ _ _ _ Ha).
  - intros -> Hno.
    assert (Qltb 0 cr_buffer && Qltb 0 left = false) as ->.
    { destruct (Qltb 0 cr_buffer) eqn:Hb, (Qltb 0 left) eqn:Hl; try done.
      apply Qltb_lt in Hb, Hl. tauto. }
    unfold_M. by rewrite Ha.
Qed.
End Gate.

(** C5, as stated, fails: the comparison passes ([o2 = 50 > 10]) and the
    curve value is 7, yet the step value is 0 and one unit of the buffer is
    consumed (2 becomes 1): the buffer delays a passing comparison, not a
    failing one. *)
Lemma passing_comparison_is_buffered :
  ∃ m',
    get_step_value (H := sample_externals) "vent" "out_o2" 0 (vent_model 50 2)
    = Ok (0, m') ∧
    Qltb 10 50 = true ∧
    curve_lookup (H := sample_externals) (vent 50 2) "out_o2" 0 (vent_model 50 2)
    = Ok (7, vent_model 50 2) ∧
    buffer_of (vent_model 50 2) "vent" "out_o2" = Some 2 ∧
    (∃ left, buffer_of m' "vent" "out_o2" = Some left ∧ left == 1).
Proof.
  eexists. split; [vm_compute; reflexivity |].
  split; [reflexivity |]. split; [vm_compute; reflexivity |].
  split; [vm_compute; reflexivity |].
  eexists. split; vm_compute; reflexivity.
Qed.

Lemma criteria_gate_witness :
  (false = false →
     get_step_value (H := sample_externals) "vent" "out_o2" 0 (vent_model 5 1)
     = Ok (0, if Qltb 0 2
              then with_agents (vent_model 5 1)
                     (<["vent" := with_buffer (vent 5 1)
                                    (<["out_o2" := 2]> (buffer (vent 5 1)))]>
                        (agents (vent_model 5 1)))
              else vent_model 5 1)) ∧
  (false = true → 0 < 2 → 0 < 1 →
     get_step_value (H := sample_externals) "vent" "out_o2" 0 (vent_model 5 1)
     = Ok (0, with_agents (vent_model 5 1)
                (<["vent" := with_buffer (vent 5 1)
                               (<["out_o2" := 1 - 1]> (buffer (vent 5 1)))]>
                   (agents (vent_model 5 1))))) ∧
  (false = true → ¬ (0 < 2 ∧ 0 < 1) →
     get_step_value (H := sample_externals) "vent" "out_o2" 0 (vent_model 5 1)
     = curve_lookup (H := sample_externals) (vent 5 1) "out_o2" 0 (vent_model 5 1)).
Proof.
  apply (criteria_gate (H := sample_externals) "vent" "out_o2" "out" "o2" "o2" 0
           (vent_model 5 1) (vent 5 1) gate_detail (VNum 5) false);
    reflexivity.
Defined.

(** A criteria on [growth_rate] is compared on the attribute of the
    object (1/2 exceeds 1/4 and the flow passes), not on a storage ratio
    of that name (which is 0). *)
Example criteria_on_growth_rate :
  criteria_source (H := plant_externals) "sprout" "growth_rate" nursery
  = Ok (VNum (1 # 2), nursery) ∧
  get_storage_ratio (H := plant_externals) "sprout" "growth_rate" nursery
  = Ok (0, nursery) ∧
  get_step_value (H := plant_externals) "sprout" "out_o2" 0 nursery
  = Ok (7, nursery).
Proof. repeat split; vm_compute; reflexivity. Qed.

(** ** The curve lookup *)

(** C10, as stated, fails: with 10 step values, a day of 24 hours and step
    index 15, the wrapped index is 15 again and the lookup raises an
    [IndexError] instead of returning a value. *)
Lemma wrapped_lookup_out_of_range :
  (Z.of_nat (length (repeat (1 : Q) 10)) <= 15)%Z ∧
  (15 mod py_int 24 = 15)%Z ∧
  lookup_step_value (repeat 1 10) 15 24 = Raise IndexError.
Proof. repeat split; vm_compute; congruence. Qed.

(** C10 (amended): when the step index is at or beyond the length of the
    step values and [int(day_length_hours)] is positive, the lookup wraps
    once, to the index [step index mod int(day_length_hours)]: the value
    returned is the entry at that index when the index is below the length
    of the step values, and the lookup raises an [IndexError] otherwise;
    with [int(day_length_hours)] zero it raises a [ZeroDivisionError]. *)
Theorem lookup_wraps_by_day (values : list Q) (step_num : Z)
    (day_length_hours : Q) :
  (Z.of_nat (length values) <= step_num)%Z →
  let day := py_int day_length_hours in
  let wrapped := (step_num mod day)%Z in
  ((0 < day)%Z →
     (0 <= wrapped < day)%Z ∧
     ((wrapped < Z.of_nat (length values))%Z →
        ∃ v, values !! Z.to_nat wrapped = Some v ∧
             lookup_step_value values step_num day_length_hours = Ok v) ∧
     ((Z.of_nat (length values) <= wrapped)%Z →
        lookup_step_value values step_num day_length_hours
        = Raise IndexError)) ∧
  (day = 0%Z →
     lookup_step_value values step_num day_length_hours
     = Raise ZeroDivisionError).
Proof.
  intros Hlen day wrapped. unfold lookup_step_value, py_mod, py_index.
  apply Z.leb_le in Hlen. rewrite Hlen. fold day. split.
  - intros Hday.
    assert ((day =? 0)%Z = false) as -> by lia. cbn. fold wrapped.
    assert (0 <= wrapped < day)%Z as Hpos
        by (apply Z.mod_pos_bound; lia).
    split; [done |].
    assert ((0 <=? wrapped)%Z = true) as -> by lia.
    split.
    + intros Hin.
      destruct (values !! Z.to_nat wrapped) as [v|] eqn:Hv.
      * by exists v.
      * apply lookup_ge_None in Hv. lia.
    + intros Hout.
      assert (values !! Z.to_nat wrapped = None) as ->
          by (apply lookup_ge_None; lia).
      reflexivity.
  - intros ->. reflexivity.
Qed.

Lemma lookup_wraps_by_day_witness :
  (0 <= 6 mod py_int 4 < py_int 4)%Z ∧
  (∃ v, [5; 6; 7; 8] !! Z.to_nat (6 mod py_int 4) = Some v ∧
        lookup_step_value [5; 6; 7; 8] 6 4 = Ok v) ∧
  lookup_step_value (repeat 1 10) 15 24 = Raise IndexError ∧
  lookup_step_value [5; 6; 7; 8] 6 0 = Raise ZeroDivisionError.
Proof.
  destruct (lookup_wraps_by_day [5; 6; 7; 8] 6 4) as [Hwrap _];
    [vm_compute; discriminate |].
  destruct Hwrap as (Hrange & Hin & _); [reflexivity |].
  destruct (lookup_wraps_by_day (repeat 1 10) 15 24) as [Hfar _];
    [vm_compute; discriminate |].
  destruct Hfar as (_ & _ & Hout); [reflexivity |].
  destruct (lookup_wraps_by_day [5; 6; 7; 8] 6 0) as [_ Hzero];
    [vm_compute; discriminate |].
  split; [exact Hrange |]. split; [apply Hin; reflexivity |].
  split; [apply Hout; vm_compute; discriminate | apply Hzero; reflexivity].
Defined.

(** ** Age *)

Section Age.
Context `{Externals}.
Variable self : string.

Lemma keeps_ret {A} (x : A) : keeps_age self (ret x).
Proof. by intros m y m' [= _ ->]. Qed.

Lemma keeps_mret {A} (x : A) : keeps_age self (mret x : M A).
Proof. apply keeps_ret. Qed.

Lemma keeps_raise {A} (e : error) : keeps_age self (raise e : M A).
Proof. by intros m y m'. Qed.

Lemma keeps_lift {A} (r : result A) : keeps_age self (lift r).
Proof. intros m y m'. unfold lift. destruct r; [| done]. by intros [= _ ->]. Qed.

Lemma keeps_read {A} (f : Model rng → A) : keeps_age self (read f).
Proof. by intros m y m' [= _ ->]. Qed.

Lemma keeps_write (f : Model rng → Model rng) :
  (∀ m, agents (f m) = agents m) → keeps_age self (write f).
Proof. intros Hf m y m' [= _ <-]. unfold age_of. by rewrite Hf. Qed.

Lemma keeps_get_agent (id : string) : keeps_age self (get_agent id).
Proof.
  intros m y m'. unfold get_agent. destruct (agents m !! id); [| done].
  by intros [= _ ->].
Qed.

Lemma keeps_bind {A B} (c : M A) (k : A → M B) :
  keeps_age self c → (∀ x, keeps_age self (k x)) → keeps_age self (c ≫= k).
Proof.
  intros Hc Hk m y m'. unfold mbind, M_bind, bind.
  destruct (c m) as [[x m1]|] eqn:Hrun; [| done].
  intros Hrun'. rewrite (Hk x _ _ _ Hrun'). by eapply Hc.
Qed.

Lemma keeps_modify_agent (id : string) (f : GeneralAgent → GeneralAgent) :
  (∀ a, age (f a) = age a) → keeps_age self (modify_agent id f).
Proof.
  intros Hf m y m'. unfold modify_agent, set_agent, get_agent, write.
  unfold mbind, M_bind, bind.
  destruct (agents m !! id) as [a|] eqn:Ha; [| done].
  intros [= _ <-]. unfold age_of. cbn.
  destruct (decide (id = self)) as [-> |Hne].
  - rewrite lookup_insert_eq, Ha. cbn. by rewrite Hf.
  - by rewrite lookup_insert_ne.
Qed.

(** Writing back an agent read from the store with its age. *)
Lemma keeps_update (id : string) (a a' : GeneralAgent) (m : Model rng) y m' :
  agents m !! id = Some a → age a' = age a →
  set_agent id a' m = Ok (y, m') → age_of m' self = age_of m self.
Proof.
  intros Ha Hage [= _ <-]. unfold age_of. cbn.
  destruct (decide (id = self)) as [-> |Hne].
  - rewrite lookup_insert_eq, Ha. cbn. by rewrite Hage.
  - by rewrite lookup_insert_ne.
Qed.

Lemma keeps_for_each {A} (xs : list A) (body : A → M control) :
  (∀ x, keeps_age self (body x)) → keeps_age self (for_each xs body).
Proof.
  intros Hbody. induction xs as [|x xs IH]; cbn.
  - apply keeps_ret.
  - apply keeps_bind; [apply Hbody |]. intros [|]; [apply IH | apply keeps_ret].
Qed.

Lemma keeps_for_each_acc {A S} (xs : list A) (s : S)
    (body : A → S → M (control * S)) :
  (∀ x s, keeps_age self (body x s)) → keeps_age self (for_each_acc xs s body).
Proof.
  intros Hbody. revert s. induction xs as [|x xs IH]; intros s; cbn.
  - apply keeps_ret.
  - apply keeps_bind; [apply Hbody |].
    intros [[|] s']; [apply IH | apply keeps_ret].
Qed.

Lemma keeps_kill (id reason : string) : keeps_age self (kill id reason).
Proof.
  unfold kill. apply keeps_bind.
  - by apply keeps_modify_agent.
  - intros _. by apply keeps_write.
Qed.

(** One step of a frame proof: split a sequence, a branch or a basic
    operation. *)
Ltac keeps_step :=
  match goal with
  | |- keeps_age _ (mret _) => apply keeps_mret
  | |- keeps_age _ (ret _) => apply keeps_ret
  | |- keeps_age _ (raise _) => apply keeps_raise
  | |- keeps_age _ (lift _) => apply keeps_lift
  | |- keeps_age _ (read _) => apply keeps_read
  | |- keeps_age _ (get_agent _) => apply keeps_get_agent
  | |- keeps_age _ (kill _ _) => apply keeps_kill
  | |- keeps_age _ (modify_agent _ _) => apply keeps_modify_agent; done
  | |- keeps_age _ (write _) => apply keeps_write; done
  | |- keeps_age _ (for_each _ _) => apply keeps_for_each; intros ?
  | |- keeps_age _ (for_each_acc _ _ _) => apply keeps_for_each_acc; intros ? ?
  | |- keeps_age _ (_ ≫= _) => apply keeps_bind; [| intros ?]
  | |- keeps_age _ (if ?b then _ else _) => destruct b
  | |- keeps_age _ (match ?x with _ => _ end) => destruct x
  | |- keeps_age _ (let '(_, _) := ?x in _) => destruct x
  end.

Ltac keeps := repeat keeps_step; eauto.

Lemma keeps_draw : keeps_age self draw.
Proof.
  intros m y m'. unfold draw. destruct (rand (random_state m)).
  by intros [= _ <-].
Qed.

Lemma keeps_draw_variable (v : variation) : keeps_age self (draw_variable v).
Proof.
  intros m y m'. unfold draw_variable.
  destruct (get_variable (random_state m) v). by intros [= _ <-].
Qed.

Lemma keeps_calculate_storage_ratios (id : string) :
  keeps_age self (calculate_storage_ratios id).
Proof. unfold calculate_storage_ratios. keeps. Qed.

Lemma keeps_storage_step (id : string) : keeps_age self (storage_step id).
Proof.
  unfold storage_step. keeps. apply keeps_calculate_storage_ratios.
Qed.

Lemma keeps_get_storage_ratio (id cr_name : string) :
  keeps_age self (get_storage_ratio id cr_name).
Proof.
  intros m y m' Hrun. by rewrite (get_storage_ratio_reads _ _ _ _ _ Hrun).
Qed.

Lemma keeps_get_step_value (attr : string) (step_num : Z) :
  keeps_age self (get_step_value self attr step_num).
Proof.
  unfold get_step_value, criteria_source. keeps.
  all: try apply keeps_get_storage_ratio.
  all: intros m y m'; unfold curve_lookup;
    destruct (step_values _ !! attr); [| done];
    destruct (lookup_step_value _ _ _); [| done]; by intros [= _ ->].
Qed.

Lemma keeps_from_any {A} (id : string) (a : GeneralAgent) (c : M A) :
  keeps_age self c → keeps_age_from self id a c.
Proof. intros Hc m x m' _. apply Hc. Qed.

Lemma keeps_from_get {A} (id : string) (k : GeneralAgent → M A) :
  (∀ a, keeps_age_from self id a (k a)) → keeps_age self (get_agent id ≫= k).
Proof.
  intros Hk m x m'. unfold mbind, M_bind, bind, get_agent.
  destruct (agents m !! id) as [a|] eqn:Ha; [| done]. by apply Hk.
Qed.

Lemma keeps_from_lift {A B} (id : string) (a : GeneralAgent)
    (r : result A) (k : A → M B) :
  (∀ x, keeps_age_from self id a (k x)) →
  keeps_age_from self id a (lift r ≫= k).
Proof.
  intros Hk m x m' Ha. unfold mbind, M_bind, bind, lift.
  destruct r as [y|]; [| done]. by apply Hk.
Qed.

Lemma keeps_from_bind {A B} (id : string) (a : GeneralAgent)
    (c : M A) (k : A → M B) :
  keeps_age_from self id a c → (∀ x, keeps_age self (k x)) →
  keeps_age_from self id a (c ≫= k).
Proof.
  intros Hc Hk m y m' Ha. unfold mbind, M_bind, bind.
  destruct (c m) as [[x m1]|] eqn:Hrun; [| done].
  intros Hrun'. rewrite (Hk x _ _ _ Hrun'). by eapply Hc.
Qed.

Lemma keeps_from_set (id : string) (a a' : GeneralAgent) :
  age a' = age a → keeps_age_from self id a (set_agent id a').
Proof. intros Hage m y m' Ha. by apply keeps_update with a. Qed.

Ltac keeps_from_step :=
  match goal with
  | |- keeps_age_from _ _ _ (lift _ ≫= _) => apply keeps_from_lift; intros ?
  | |- keeps_age_from _ _ _ (set_agent _ _) => apply keeps_from_set; done
  | |- keeps_age_from _ _ _ (_ ≫= _) => apply keeps_from_bind; [| intros ?]
  | |- keeps_age_from _ _ _ (if ?b then _ else _) => destruct b
  | |- keeps_age_from _ _ _ (match ?x with _ => _ end) => destruct x
  | |- keeps_age_from _ _ _ (let '(_, _) := ?x in _) => destruct x
  | |- keeps_age_from _ _ _ _ => apply keeps_from_any
  | |- keeps_age _ (get_agent ?id ≫= _) => apply keeps_from_get; intros ?
  | |- _ => keeps_step
  end.

Ltac keeps_from := repeat keeps_from_step; eauto.

Lemma keeps_increment_storage (id currency : string) (x : Q) :
  keeps_age self (increment_storage id currency x).
Proof. unfold increment_storage. keeps_from. Qed.

Lemma keeps_update_deprive (attr currency : string) (detail : attr_detail)
    (has_deficit : bool) (available_value actual_value step_mag : Q) :
  keeps_age self
    (update_deprive self attr detail currency has_deficit
       available_value actual_value step_mag).
Proof. unfold update_deprive. keeps_from. Qed.

Lemma keeps_check_required (detail : attr_detail) (has_deficit : bool) :
  keeps_age self (check_required self detail has_deficit).
Proof. unfold check_required. keeps. Qed.

Lemma keeps_update_deficit (attr currency : string) (detail : attr_detail)
    (prefix : flow_direction) (available_value target_value step_mag : Q) :
  keeps_age self
    (update_deficit self attr detail prefix currency
       available_value target_value step_mag).
Proof.
  unfold update_deficit. apply keeps_bind; [apply keeps_check_required |].
  intros [|]; [apply keeps_update_deprive | apply keeps_ret].
Qed.

Lemma keeps_available (storages : list string) (currency : string)
    (total : Q) (conns : list connection) :
  keeps_age self (available storages currency total conns).
Proof.
  revert total conns. induction storages as [|s rest IH]; intros; cbn; keeps.
Qed.

Lemma keeps_exchange_loop (prefix : flow_direction) (currency : string)
    (actual_value value_eps : Q) (n : nat) (conns : list connection)
    (remaining : Q) (influx : list string) :
  keeps_age self
    (exchange_loop self prefix currency actual_value value_eps n conns
       remaining influx).
Proof.
  revert remaining influx.
  induction conns as [|conn rest IH]; intros; cbn; [apply keeps_ret |].
  apply keeps_bind; [apply keeps_increment_storage |]. intros flow.
  destruct (Qltb actual_value value_eps); [apply IH |].
  keeps.
Qed.

Lemma keeps_new_instance (detail : attr_detail) :
  keeps_age self (new_instance detail).
Proof. unfold new_instance. keeps; apply keeps_draw_variable. Qed.

Lemma keeps_roll_instances (n : nat) (attr_value : attr_value)
    (detail : attr_detail) (event_type : string)
    (instances : list event_instance) :
  keeps_age self
    (roll_instances n self attr_value detail event_type instances).
Proof.
  revert instances. induction n as [|n IH]; intros; cbn; [apply keeps_ret |].
  apply keeps_bind; [apply keeps_draw |]. intros v.
  keeps. apply keeps_new_instance.
Qed.

Lemma keeps_process_event (attr : string) (attr_value : attr_value) :
  keeps_age self (process_event self attr attr_value).
Proof.
  unfold process_event.
  apply keeps_bind; [apply keeps_lift |]. intros event_type.
  apply keeps_bind; [apply keeps_get_agent |]. intros a.
  apply keeps_bind; [apply keeps_lift |]. intros detail.
  apply keeps_bind; [apply keeps_lift |]. intros aged.
  apply keeps_bind; [apply keeps_roll_instances |]. intros instances.
  keeps_from.
Qed.

Lemma keeps_check_threshold (attr : string) (attr_value : attr_value) :
  keeps_age self (check_threshold self attr attr_value).
Proof. unfold check_threshold. keeps. Qed.

(** What is assumed of the functions of [custom_funcs]: they leave the age
    of the agent they are applied to as it is. *)
Hypothesis custom_funcs_keep_age :
  ∀ name f m m',
    custom_funcs name = Some f → f self m = Ok m' →
    age_of m' self = age_of m self.

Lemma keeps_run_custom_function (attr : string) (attr_value : attr_value) :
  keeps_age self (run_custom_function self attr attr_value).
Proof.
  unfold run_custom_function.
  destruct (String.eqb attr "char_custom_function"); [| apply keeps_ret].
  destruct attr_value as [|name]; [apply keeps_raise |].
  destruct (custom_funcs name) as [f|] eqn:Hf; [| apply keeps_raise].
  intros m y m'. destruct (f self m) as [m1|] eqn:Hrun; [| done].
  intros [= _ <-]. by eapply custom_funcs_keep_age.
Qed.

Lemma keeps_attr_body (item : string * attr_value) :
  keeps_age self (attr_body self item).
Proof.
  unfold attr_body. destruct item as [attr attr_value].
  apply keeps_bind; [apply keeps_check_threshold |]. intros [|]; [| apply keeps_ret].
  apply keeps_bind; [apply keeps_run_custom_function |]. intros _.
  keeps. apply keeps_process_event.
Qed.

Lemma keeps_flow_body (value_eps : Q) (prefix : flow_direction)
    (item : string * list string) (influx : list string) :
  keeps_age self (flow_body self value_eps prefix item influx).
Proof.
  unfold flow_body, process_exchange. destruct item as [currency storages].
  keeps.
  - apply keeps_get_step_value.
  - apply keeps_available.
  - apply keeps_update_deficit.
  - apply keeps_exchange_loop.
Qed.

Lemma keeps_flows (value_eps : Q) : keeps_age self (flows self value_eps).
Proof. unfold flows. keeps. apply keeps_flow_body. Qed.

Lemma storage_step_frame (m m' : Model rng) y :
  storage_step self m = Ok (y, m') →
  agents m' = agents m ∧ hours_per_step m' = hours_per_step m.
Proof.
  unfold storage_step, calculate_storage_ratios. unfold_M.
  destruct (agents m !! self) as [a|]; [| done].
  destruct (has_storage (storage a)); [| by intros [= _ <-]].
  destruct (agents m !! self) as [a'|]; [| done].
  destruct (storage_totals _ _ _ _) as [[temp total]|]; [| done]. cbn.
  destruct (storage_ratio_entries _ _ _); [| done]. by intros [= _ <-].
Qed.

(** C9 (amended): every step of a flow agent that runs to its end or
    aborts (threshold kill, mandatory deficit, death by deprivation)
    advances the age by exactly the hours per step: the age is increased
    before any check. *)
Theorem step_advances_age (value_eps : Q) (m m' : Model rng)
    (a : GeneralAgent) :
  agents m !! self = Some a →
  step self value_eps m = Ok (tt, m') →
  ∃ a', agents m' !! self = Some a' ∧ age a' = age a + hours_per_step m.
Proof.
  intros Ha. unfold step.
  unfold mbind at 1. unfold M_bind, bind.
  destruct (storage_step self m) as [[[] m1]|] eqn:Hstorage; [| done].
  destruct (storage_step_frame _ _ _ Hstorage) as [Hags Hhps].
  assert (agents m1 !! self = Some a) as Ha1 by (by rewrite Hags).
  unfold mbind at 1. unfold M_bind, bind.
  rewrite (modify_agent_run _ _ _ _ Ha1).
  unfold mbind at 1. unfold M_bind, bind, read.
  unfold mbind at 1. unfold M_bind, bind.
  erewrite modify_agent_run by (cbn; apply lookup_insert_eq).
  intros Hrest.
  match type of Hrest with
  | ?c ?m2 = _ =>
      assert (keeps_age self c) as Hkeep; [| apply Hkeep in Hrest]
  end.
  { keeps.
    - apply keeps_attr_body.
    - apply keeps_draw_variable.
    - apply keeps_flows. }
  unfold age_of in Hrest. cbn in Hrest.
  rewrite lookup_insert_eq in Hrest. cbn in Hrest.
  destruct (agents m' !! self) as [a'|]; [| done].
  exists a'. split; [done |]. injection Hrest as ->. by rewrite Hhps.
Qed.
End Age.

(** C9, as stated, fails: a step that ends at the threshold kill, and a step
    that ends at a mandatory deficit, both leave the age advanced by the
    hour of the step. *)
Lemma aborted_steps_advance_age :
  (∃ m' a',
     step (H := sample_externals) "breather" value_eps_default
       (breather_cabin 50 (5 # 100)) = Ok (tt, m') ∧
     agents m' !! "breather" = Some a' ∧
     cause_of_death (storage a') =
       Some "Threshold o2 met for breather. Killing the agent" ∧
     o2_of m' "air" = Some 50 ∧
     age breather == 0 ∧ age a' == 1) ∧
  (∃ m' a',
     step (H := sample_externals) "breather" value_eps_default
       (breather_cabin (1 # 2) (50 # 100)) = Ok (tt, m') ∧
     agents m' !! "breather" = Some a' ∧
     active (storage a') = true ∧
     o2_of m' "air" = Some (1 # 2) ∧
     step_exchange_buffer_in a' = [] ∧
     age breather == 0 ∧ age a' == 1).
Proof.
  split; eexists _, _; (split; [vm_compute; reflexivity |]);
    repeat split; vm_compute; reflexivity.
Qed.

Lemma step_advances_age_witness :
  ∃ a',
    agents (after_step (H := sample_externals) "breather"
              (breather_cabin 50 (5 # 100))) !! "breather" = Some a' ∧
    age a' = age breather + hours_per_step (breather_cabin 50 (5 # 100)).
Proof.
  apply (step_advances_age (H := sample_externals) "breather")
    with (value_eps := value_eps_default).
  - intros name f m m' Hf. discriminate Hf.
  - reflexivity.
  - vm_compute. reflexivity.
Defined.

(** ** Distribution over the connected storages *)

(** C6, evaluated: an output of 8 units over two empty tanks of capacity
    100 puts 4 units in the first tank and 2 in the second; the other 2 are
    lost.  Each tank receives the quantity still remaining, not the whole
    quantity, divided by the number of tanks. *)
Theorem output_split_is_not_even :
  (∃ influx m' a b,
     process_exchange (H := sample_externals) "o2_maker" Out_ "o2" 8
       value_eps_default [mkConn "tank_a" 0 100; mkConn "tank_b" 0 100] []
       two_tanks = Ok (influx, m') ∧
     o2_of m' "tank_a" = Some a ∧ a == 4 ∧
     o2_of m' "tank_b" = Some b ∧ b == 2 ∧ ¬ b == 8 / 2) ∧
  (∃ m' a b,
     step (H := sample_externals) "o2_maker" value_eps_default two_tanks
     = Ok (tt, m') ∧
     o2_of m' "tank_a" = Some a ∧ a == 4 ∧
     o2_of m' "tank_b" = Some b ∧ b == 2).
Proof.
  split.
  - eexists _, _, _, _. split; [vm_compute; reflexivity |].
    repeat split; try (vm_compute; reflexivity). vm_compute. discriminate.
  - eexists _, _, _. split; [vm_compute; reflexivity |].
    repeat split; vm_compute; reflexivity.
Qed.

(** The input side of C6 on an example: 7 units asked from tanks holding 5
    and 10 take all 5 of the first tank and 2 of the second. *)
Example input_drains_in_order :
  ∃ influx m' a b,
    process_exchange (H := sample_externals) "o2_maker" In_ "o2" 7
      value_eps_default [mkConn "tank_a" 5 100; mkConn "tank_b" 10 100] []
      (with_agents two_tanks
         (<["tank_a" := storage_only (o2_storage "tank_a" 5)]>
            (<["tank_b" := storage_only (o2_storage "tank_b" 10)]>
               (agents two_tanks))))
    = Ok (influx, m') ∧
    influx = ["o2"] ∧
    o2_of m' "tank_a" = Some a ∧ a == 0 ∧
    o2_of m' "tank_b" = Some b ∧ b == 8.
Proof.
  eexists _, _, _, _. split; [vm_compute; reflexivity |].
  repeat split; vm_compute; reflexivity.
Qed.

(** ** The CO2 correction *)

(** C7, as stated, fails: for a plant whose adjusted outputs exceed its
    adjusted inputs the error is negative, nothing is redistributed, and the
    sums differ by more than one unit after the correction. *)
Lemma co2_correction_keeps_excess_output :
  ∃ sv m',
    co2_adjusted (H := sample_externals) "wheat" (Some "c3") 1
      value_eps_default greenhouse = Ok (sv, m') ∧
    dict_keys (adjusted_in sv) = ["co2"] ∧
    dict_keys (adjusted_out sv) = ["o2"] ∧
    1 <= Qsum (dict_values (adjusted_out sv))
         - Qsum (dict_values (adjusted_in sv)).
Proof.
  eexists _, _. split; [vm_compute; reflexivity |].
  repeat split; vm_compute; congruence.
Qed.

Lemma Qsum_corrected (values : list Q) (net_outputs sv_error : Q) :
  Qsum (map (fun value => value + value / net_outputs * sv_error) values)
  == Qsum values + Qsum values / net_outputs * sv_error.
Proof.
  induction values as [|v values IH]; cbn.
  - unfold Qdiv. ring.
  - rewrite IH. fold (Qsum values). unfold Qdiv. ring.
Qed.

(** C7 (amended): when the adjusted inputs exceed the adjusted outputs by
    more than [value_eps] and the outputs do not sum to zero, the outputs
    after the proportional redistribution sum to the adjusted inputs; when
    the error is at most [value_eps], in particular when the outputs exceed
    the inputs, the outputs are left as they are. *)
Theorem rebalance_conserves (sv_in sv_out : list (string * Q)) (value_eps : Q) :
  let net_inputs := Qsum (dict_values sv_in) in
  let net_outputs := Qsum (dict_values sv_out) in
  (value_eps < net_inputs - net_outputs → ¬ net_outputs == 0 →
     dict_keys (rebalance sv_in sv_out value_eps) = dict_keys sv_out ∧
     Qsum (dict_values (rebalance sv_in sv_out value_eps)) == net_inputs) ∧
  (net_inputs - net_outputs <= value_eps →
     rebalance sv_in sv_out value_eps = sv_out).
Proof.
  intros net_inputs net_outputs. unfold rebalance.
  fold net_inputs net_outputs. split.
  - intros Herr Hnz. apply Qltb_lt in Herr. rewrite Herr.
    split.
    + unfold dict_keys. rewrite map_map. apply map_ext. by intros [c v].
    + unfold dict_values. rewrite map_map.
      rewrite (map_ext _ (fun kv => kv.2 + kv.2 / net_outputs
                                    * (net_inputs - net_outputs)))
        by (by intros [c v]).
      rewrite <- (map_map snd (fun value => value + value / net_outputs
                                            * (net_inputs - net_outputs))).
      rewrite Qsum_corrected. fold (dict_values sv_out). fold net_outputs.
      field. exact Hnz.
  - intros Herr. apply Qltb_ge in Herr. by rewrite Herr.
Qed.

Lemma rebalance_conserves_witness :
  dict_keys (rebalance [("co2", 3)] [("o2", 1); ("h2o", 1)] value_eps_default)
  = ["o2"; "h2o"] ∧
  Qsum (dict_values
          (rebalance [("co2", 3)] [("o2", 1); ("h2o", 1)] value_eps_default))
  == 3.
Proof.
  apply (rebalance_conserves [("co2", 3)] [("o2", 1); ("h2o", 1)]
           value_eps_default); [reflexivity | discriminate].
Defined.

(** ** Events *)

Section Events.
Context `{Externals}.

Lemma draw_agents (m m' : Model rng) v :
  draw m = Ok (v, m') → agents m' = agents m.
Proof.
  unfold draw. destruct (rand (random_state m)). by intros [= _ <-].
Qed.

Lemma draw_variable_agents (var : variation) (m m' : Model rng) v :
  draw_variable var m = Ok (v, m') → agents m' = agents m.
Proof.
  unfold draw_variable. destruct (get_variable (random_state m) var).
  by intros [= _ <-].
Qed.

Lemma new_instance_agents (detail : attr_detail) (m m' : Model rng) i :
  new_instance detail m = Ok (i, m') → agents m' = agents m.
Proof.
  unfold new_instance. unfold_M.
  assert (∀ (m1 m2 : Model rng) (x : event_instance) (i : event_instance),
            agents m1 = agents m → Ok (x, m1) = Ok (i, m2) →
            agents m2 = agents m) as Hend
    by (intros ? ? ? ? ? [= _ <-]; done).
  destruct (magnitude_variation detail) as [v|].
  - destruct (draw_variable v m) as [[x m1]|] eqn:Hd; [| done].
    apply draw_variable_agents in Hd.
    destruct (duration_value detail) as [d|]; [| by apply Hend].
    destruct (Qeq_bool d 0); [by apply Hend |].
    destruct (duration_variation detail) as [v'|]; [| by apply Hend].
    destruct (draw_variable v' m1) as [[x' m2]|] eqn:Hd'; [| done].
    apply draw_variable_agents in Hd'. apply Hend. congruence.
  - destruct (duration_value detail) as [d|]; [| by apply Hend].
    destruct (Qeq_bool d 0); [by apply Hend |].
    destruct (duration_variation detail) as [v'|]; [| by apply Hend].
    destruct (draw_variable v' m) as [[x' m2]|] eqn:Hd'; [| done].
    apply draw_variable_agents in Hd'. by apply Hend.
Qed.

Lemma same_events_agents (id : string) (a : GeneralAgent) (m m' : Model rng) :
  agents m' = agents m → same_events id a m → same_events id a m'.
Proof. intros Hags. unfold same_events. by rewrite Hags. Qed.

Lemma same_events_kill (id reason : string) (a : GeneralAgent)
    (m m' : Model rng) y :
  same_events id a m → kill id reason m = Ok (y, m') → same_events id a m'.
Proof.
  intros (a' & Ha' & Hev & Hmu & Ham) Hkill.
  rewrite (kill_run _ _ _ _ Ha') in Hkill. injection Hkill as _ <-.
  eexists. split; [cbn; apply lookup_insert_eq |]. done.
Qed.

Lemma roll_instances_spec (n : nat) (self : string) (av : attr_value)
    (detail : attr_detail) (event_type : string) (a : GeneralAgent) :
  ∀ instances (m m' : Model rng) instances',
    same_events self a m →
    roll_instances n self av detail event_type instances m
    = Ok (instances', m') →
    same_events self a m' ∧
    (length instances <= length instances' <= length instances + n)%nat.
Proof.
  induction n as [|n IH]; intros instances m m' instances' Hsame; cbn.
  - intros [= <- <-]. split; [done | lia].
  - unfold mbind at 1. unfold M_bind, bind.
    destruct (draw m) as [[v m1]|] eqn:Hdraw; [| done].
    apply draw_agents in Hdraw.
    pose proof (same_events_agents _ _ _ _ Hdraw Hsame) as Hsame1.
    destruct (Qltb (probability_per_step detail) v).
    { intros Hrun. destruct (IH _ _ _ _ Hsame1 Hrun). split; [done | lia]. }
    destruct (is_word av "termination").
    { unfold mbind at 1. unfold M_bind, bind.
      destruct (kill self _ m1) as [[[] m2]|] eqn:Hkill; [| done].
      pose proof (same_events_kill _ _ _ _ _ _ Hsame1 Hkill) as Hsame2.
      intros Hrun. destruct (IH _ _ _ _ Hsame2 Hrun). split; [done | lia]. }
    destruct (is_word av "multiplier").
    { unfold mbind at 1. unfold M_bind, bind.
      destruct (new_instance detail m1) as [[i m2]|] eqn:Hnew; [| done].
      apply new_instance_agents in Hnew.
      pose proof (same_events_agents _ _ _ _ Hnew Hsame1) as Hsame2.
      intros Hrun. destruct (IH _ _ _ _ Hsame2 Hrun) as [? Hlen].
      rewrite length_app in Hlen. cbn in Hlen. split; [done | lia]. }
    intros Hrun. destruct (IH _ _ _ _ Hsame1 Hrun). split; [done | lia].
Qed.

Lemma age_instances_length (detail : attr_detail)
    (instances instances' : list event_instance) :
  age_instances detail instances = Ok instances' →
  length instances' = length instances.
Proof.
  revert instances'. induction instances as [|i rest IH]; intros instances'; cbn.
  - by intros [= <-].
  - destruct (duration i) as [d|].
    + destruct (duration_delta_per_step detail); [| done]. cbn.
      destruct (age_instances detail rest) as [rest'|]; [| done]. cbn.
      intros [= <-]. cbn. f_equal. by apply IH.
    + cbn. destruct (age_instances detail rest) as [rest'|]; [| done]. cbn.
      intros [= <-]. cbn. f_equal. by apply IH.
Qed.

Lemma py_prefix_length {A} (xs : list A) (n : Z) :
  (length (py_prefix xs n) <= length xs)%nat ∧
  (0 <= n → Z.of_nat (length (py_prefix xs n)) <= n)%Z.
Proof.
  unfold py_prefix. destruct (0 <=? n)%Z eqn:E.
  - rewrite length_firstn. lia.
  - rewrite length_firstn. lia.
Qed.

Lemma new_instance_total (detail : attr_detail) (m : Model rng) :
  ∃ i m', new_instance detail m = Ok (i, m').
Proof.
  unfold new_instance, draw_variable. unfold_M.
  destruct (magnitude_variation detail) as [v|].
  - destruct (get_variable (random_state m) v) as [x r].
    destruct (duration_value detail) as [d|]; [| by eauto].
    destruct (Qeq_bool d 0); [by eauto |].
    destruct (duration_variation detail) as [v'|]; [| by eauto].
    cbn. destruct (get_variable r v'). by eauto.
  - destruct (duration_value detail) as [d|]; [| by eauto].
    destruct (Qeq_bool d 0); [by eauto |].
    destruct (duration_variation detail) as [v'|]; [| by eauto].
    destruct (get_variable (random_state m) v'). by eauto.
Qed.

Lemma roll_instances_total (n : nat) (self : string) (av : attr_value)
    (detail : attr_detail) (event_type : string) (a : GeneralAgent) :
  ∀ instances (m : Model rng),
    same_events self a m →
    ∃ instances' m',
      roll_instances n self av detail event_type instances m
      = Ok (instances', m').
Proof.
  induction n as [|n IH]; intros instances m Hsame; cbn; [by eauto |].
  unfold mbind at 1. unfold M_bind, bind.
  destruct (draw m) as [[v m1]|] eqn:Hdraw.
  2:{ unfold draw in Hdraw. by destruct (rand (random_state m)). }
  apply draw_agents in Hdraw.
  pose proof (same_events_agents _ _ _ _ Hdraw Hsame) as Hsame1.
  destruct (Qltb (probability_per_step detail) v); [by apply IH |].
  destruct (is_word av "termination").
  { unfold mbind at 1. unfold M_bind, bind.
    destruct Hsame1 as (a1 & Ha1 & Hrest).
    rewrite (kill_run _ _ _ _ Ha1). apply IH.
    eexists. split; [cbn; apply lookup_insert_eq |]. done. }
  destruct (is_word av "multiplier"); [| by apply IH].
  unfold mbind at 1. unfold M_bind, bind.
  destruct (new_instance_total detail m1) as (i & m2 & Hnew). rewrite Hnew.
  apply new_instance_agents in Hnew.
  apply IH. by apply (same_events_agents _ _ _ _ Hnew).
Qed.

Lemma age_instances_total (detail : attr_detail)
    (instances : list event_instance) :
  (is_Some (duration_delta_per_step detail) ∨
   Forall (fun i => duration i = None) instances) →
  ∃ aged, age_instances detail instances = Ok aged.
Proof.
  intros Hconf. induction instances as [|i rest IH]; cbn; [by eauto |].
  destruct IH as [aged Haged].
  { destruct Hconf as [? |Hall]; [by left | right]. by inversion Hall. }
  rewrite Haged. destruct (duration i) as [d|] eqn:Hd; cbn; [| by eauto].
  destruct Hconf as [[delta ->] |Hall]; cbn; [by eauto |].
  inversion Hall; congruence.
Qed.

(** [_process_event] does not raise on an agent whose instances with a
    duration come with a configured [duration_delta_per_step] and whose
    [events] and [event_multipliers] hold the same event types. *)
Lemma process_event_total (self attr event_type : string)
    (attr_value : attr_value) (detail : attr_detail)
    (m : Model rng) (a : GeneralAgent) :
  agents m !! self = Some a →
  split_on "_"%char 1 attr !! 1%nat = Some event_type →
  attr_details (storage a) !! attr = Some detail →
  (is_Some (duration_delta_per_step detail) ∨
   Forall (fun i => duration i = None) (instances_of a event_type)) →
  (is_Some (events a !! event_type) →
   is_Some (event_multipliers a !! event_type)) →
  ∃ m', process_event self attr attr_value m = Ok (tt, m').
Proof.
  intros Ha Htype Hdetail Hconf Hsync. unfold process_event.
  unfold mbind at 1. unfold M_bind, bind, lift. rewrite Htype. cbn [of_option].
  unfold mbind at 1. unfold M_bind, bind. unfold get_agent at 1. rewrite Ha.
  unfold mbind at 1. unfold M_bind, bind, lift. rewrite Hdetail. cbn [of_option].
  unfold mbind at 1. unfold M_bind, bind, lift.
  destruct (age_instances_total detail _ Hconf) as [aged Haged].
  fold (instances_of a event_type). rewrite Haged.
  set (kept := List.filter still_active aged).
  set (capped := if (amount (storage a) <? Z.of_nat (length kept))%Z
                 then py_prefix kept (amount (storage a)) else kept).
  set (slots := if String.eqb (scope detail) "group"
                then 1%Z else amount (storage a)).
  assert (slots = 0%Z → capped = []) as Hslots.
  { unfold slots, capped, py_prefix.
    destruct (String.eqb (scope detail) "group"); [done |]. intros ->.
    replace (0 <=? 0)%Z with true by done.
    destruct (0 <? Z.of_nat (length kept))%Z eqn:E; [done |].
    apply Z.ltb_ge in E. destruct kept; [done | cbn in E; lia]. }
  unfold mbind at 1. unfold M_bind, bind.
  destruct (roll_instances_total (Z.to_nat (slots - Z.of_nat (length capped)))
              self attr_value detail event_type a capped m
              ltac:(by exists a))
    as (final & m1 & Hroll).
  rewrite Hroll.
  destruct (roll_instances_spec _ _ _ _ _ a _ _ _ _ ltac:(by exists a) Hroll)
    as [(a1 & Ha1 & Hev & Hmu & Ham) [Hlow Hhigh]].
  unfold mbind at 1. unfold M_bind, bind. unfold get_agent at 1. rewrite Ha1.
  destruct final as [|i final].
  - destruct (events a1 !! event_type) as [old|] eqn:Hold; [| by eauto].
    rewrite Hev in Hold. destruct Hsync as [mu Hmu']; [by eauto |].
    rewrite <- Hmu in Hmu'. unfold_M. rewrite Hmu'. cbn. by eauto.
  - unfold mbind at 1. unfold M_bind, bind, lift, py_div.
    destruct (Qeq_bool (inject_Z slots) 0) eqn:Hzero.
    + exfalso. apply Qeq_bool_iff in Hzero.
      assert (slots = 0%Z) as Hs.
      { unfold Qeq, inject_Z in Hzero. cbn in Hzero. lia. }
      rewrite (Hslots Hs), Hs in Hhigh. cbn in Hhigh. lia.
    + unfold set_agent, write. by eauto.
Qed.

(** C8: after the events of an attribute are processed, a ['group'] event
    that had at most one instance has at most one, any other event has at
    most [amount] instances; while instances remain the multiplier is
    [(sum of magnitudes + empty slots) / slots]; when none remains the
    event type has no entry in [events], nor in [event_multipliers] (the
    two dicts being filled and emptied together). *)
Theorem process_event_invariant (self attr event_type : string)
    (attr_value : attr_value) (detail : attr_detail)
    (m m' : Model rng) (a : GeneralAgent) :
  agents m !! self = Some a →
  split_on "_"%char 1 attr !! 1%nat = Some event_type →
  attr_details (storage a) !! attr = Some detail →
  process_event self attr attr_value m = Ok (tt, m') →
  ∃ a',
    agents m' !! self = Some a' ∧
    amount (storage a') = amount (storage a) ∧
    (scope detail = "group" →
       (length (instances_of a event_type) <= 1)%nat →
       (length (instances_of a' event_type) <= 1)%nat) ∧
    (scope detail ≠ "group" → (0 <= amount (storage a'))%Z →
       (Z.of_nat (length (instances_of a' event_type))
        <= amount (storage a'))%Z) ∧
    (∀ instances,
       events a' !! event_type = Some instances →
       instances ≠ [] ∧
       event_multipliers a' !! event_type =
         Some ((Qsum (map magnitude instances)
                + inject_Z (event_slots detail a'
                            - Z.of_nat (length instances)))
               / inject_Z (event_slots detail a'))) ∧
    (instances_of a' event_type = [] →
       events a' !! event_type = None ∧
       ((events a !! event_type = None →
         event_multipliers a !! event_type = None) →
        event_multipliers a' !! event_type = None)).
Proof.
  intros Ha Htype Hdetail. unfold process_event.
  unfold mbind at 1. unfold M_bind, bind, lift. rewrite Htype. cbn [of_option].
  unfold mbind at 1. unfold M_bind, bind. unfold get_agent at 1. rewrite Ha.
  unfold mbind at 1. unfold M_bind, bind, lift. rewrite Hdetail. cbn [of_option].
  unfold mbind at 1. unfold M_bind, bind, lift.
  destruct (age_instances detail (default [] (events a !! event_type)))
    as [aged|] eqn:Haged; [| done].
  apply age_instances_length in Haged.
  set (kept := List.filter still_active aged).
  assert (length kept <= length (instances_of a event_type))%nat as Hkept.
  { unfold kept, instances_of. rewrite <- Haged. apply List.filter_length_le. }
  set (capped := if (amount (storage a) <? Z.of_nat (length kept))%Z
                 then py_prefix kept (amount (storage a)) else kept).
  assert (length capped <= length kept)%nat as Hcapped.
  { unfold capped. destruct (_ <? _)%Z; [apply py_prefix_length | done]. }
  assert (0 <= amount (storage a) →
          Z.of_nat (length capped) <= amount (storage a))%Z as Hcap_amount.
  { intros Hpos. unfold capped. destruct (_ <? _)%Z eqn:E.
    - by apply py_prefix_length.
    - by apply Z.ltb_ge in E. }
  set (slots := if String.eqb (scope detail) "group"
                then 1%Z else amount (storage a)).
  unfold mbind at 1. unfold M_bind, bind.
  destruct (roll_instances _ self attr_value detail event_type capped m)
    as [[final m1]|] eqn:Hroll; [| done].
  destruct (roll_instances_spec _ _ _ _ _ a _ _ _ _
              ltac:(by exists a) Hroll)
    as [(a1 & Ha1 & Hev & Hmu & Ham) [Hlow Hhigh]].
  unfold mbind at 1. unfold M_bind, bind. unfold get_agent at 1. rewrite Ha1.
  assert (scope detail = "group" →
          (length (instances_of a event_type) <= 1)%nat →
          (length final <= 1)%nat) as Hgroup.
  { intros Hscope Hone. unfold slots in Hhigh. rewrite Hscope in Hhigh.
    cbn in Hhigh. lia. }
  assert (scope detail ≠ "group" → (0 <= amount (storage a))%Z →
          (Z.of_nat (length final) <= amount (storage a))%Z) as Hindividual.
  { intros Hscope Hpos. unfold slots in Hhigh.
    apply String.eqb_neq in Hscope. rewrite Hscope in Hhigh.
    specialize (Hcap_amount Hpos). lia. }
  destruct final as [|i final].
  - (* no instance remains *)
    destruct (events a1 !! event_type) as [old|] eqn:Hold.
    + unfold_M. destruct (event_multipliers a1 !! event_type); [| done]. cbn.
      intros [= <-]. eexists. split; [cbn; apply lookup_insert_eq |].
      cbn. split; [done |]. unfold instances_of. cbn.
      rewrite !lookup_delete_eq. cbn.
      split; [intros; lia |]. split; [intros; lia |].
      split; [done |]. done.
    + intros [= <-]. exists a1. split; [done |]. split; [done |].
      unfold instances_of. rewrite Hold. cbn.
      split; [intros; lia |]. split; [intros; lia |].
      split; [done |]. intros _. split; [done |].
      rewrite Hev in Hold. rewrite Hmu. auto.
  - (* instances remain *)
    unfold mbind at 1. unfold M_bind, bind, lift, py_div.
    destruct (Qeq_bool (inject_Z slots) 0); [done |].
    unfold set_agent, write. intros [= <-].
    eexists. split; [cbn; apply lookup_insert_eq |].
    cbn. split; [done |]. unfold instances_of, event_slots. cbn.
    rewrite !lookup_insert_eq. cbn [default].
    split; [auto |]. split; [rewrite Ham; auto |].
    split; [| done].
    intros instances [= <-]. split; [done |]. by rewrite Ham.
Qed.
End Events.

Lemma process_event_invariant_witness :
  ∃ a',
    agents (after_event (H := sample_externals) "patients" "event_illness"
              (VStr "multiplier") (sick_bay [] [1 # 4; 3 # 4; 1 # 10]))
      !! "patients" = Some a' ∧
    (Z.of_nat (length (instances_of a' "illness")) <= amount (storage a'))%Z ∧
    (∀ instances,
       events a' !! "illness" = Some instances →
       instances ≠ [] ∧
       event_multipliers a' !! "illness" =
         Some ((Qsum (map magnitude instances)
                + inject_Z (event_slots illness_detail a'
                            - Z.of_nat (length instances)))
               / inject_Z (event_slots illness_detail a'))).
Proof.
  destruct (process_event_invariant (H := sample_externals)
              "patients" "event_illness" "illness" (VStr "multiplier")
              illness_detail (sick_bay [] [1 # 4; 3 # 4; 1 # 10])
              (after_event (H := sample_externals) "patients" "event_illness"
                 (VStr "multiplier") (sick_bay [] [1 # 4; 3 # 4; 1 # 10]))
              (patients []))
    as (a' & Ha' & Ham & _ & Hindividual & Hmultiplier & _);
    [reflexivity | reflexivity | reflexivity | vm_compute; reflexivity |].
  exists a'. split; [exact Ha' |]. split; [| exact Hmultiplier].
  apply Hindividual; [discriminate |]. rewrite Ham. discriminate.
Defined.

(** Runs of the event processing on three patients: two of three rolls
    succeed and the multiplier becomes (1/2 + 1/2 + 1) / 3; an instance in
    its last hour expires and, without a new one, both entries go. *)
Example process_event_runs :
  (∃ m' a' mu,
     process_event (H := sample_externals) "patients" "event_illness"
       (VStr "multiplier") (sick_bay [] [1 # 4; 3 # 4; 1 # 10]) = Ok (tt, m') ∧
     agents m' !! "patients" = Some a' ∧
     events a' !! "illness" =
       Some [mkInstance (1 # 2) (Some 3); mkInstance (1 # 2) (Some 3)] ∧
     event_multipliers a' !! "illness" = Some mu ∧ mu == 2 # 3) ∧
  (∃ m' a',
     process_event (H := sample_externals) "patients" "event_illness"
       (VStr "multiplier")
       (sick_bay [mkInstance (1 # 2) (Some 1)] [1; 1; 1]) = Ok (tt, m') ∧
     agents m' !! "patients" = Some a' ∧
     events a' !! "illness" = None ∧
     event_multipliers a' !! "illness" = None).
Proof.
  split.
  - eexists _, _, _. split; [vm_compute; reflexivity |].
    repeat split; vm_compute; reflexivity.
  - eexists _, _. split; [vm_compute; reflexivity |].
    repeat split; vm_compute; reflexivity.
Qed.

(** * Further properties of the storage engine *)

(** X1: [view] answers for a currency the storage holds and for every
    currency class, and raises [KeyError] for anything else: an unknown
    name, an unknown type, a currency without a balance. *)
Theorem view_answers (s : StorageAgent) (v : string) :
  ((∃ members, view s v = Ok members) ↔
   (∃ cls, currency_dict s !! v = Some (Currency cls) ∧
           is_Some (balance s !! v)) ∨
   (∃ cs, currency_dict s !! v = Some (CurrencyClass cs))) ∧
  (∀ e, view s v = Raise e → e = KeyError).
Proof.
  unfold view. destruct (currency_dict s !! v) as [[cls|cs|]|] eqn:Hd.
  - destruct (balance s !! v) as [b|] eqn:Hb; cbn.
    + split; [| done]. split; [intros _; left; by eauto | by eauto].
    + split; [| by intros e [= <-]]. split; [by intros [? ?] |].
      intros [(cls' & _ & [? ?]) | [cs ?]]; done.
  - split; [| done]. split; [intros _; right; by eauto | by eauto].
  - split; [| by intros e [= <-]]. split; [by intros [? ?] |].
    intros [(cls' & ? & _) | [cs ?]]; done.
  - split; [| by intros e [= <-]]. split; [by intros [? ?] |].
    intros [(cls' & ? & _) | [cs ?]]; done.
Qed.

Lemma view_class_fold_members (s : StorageAgent) (cs : list string) acc :
  reads_balance s acc →
  ∀ c b,
    dict_get (fold_left
                (fun acc c =>
                   match balance s !! c with
                   | Some b => dict_set acc c b
                   | None => acc
                   end) cs acc) c = Some b ↔
    (c ∈ cs ∨ is_Some (dict_get acc c)) ∧ balance s !! c = Some b.
Proof.
  revert acc. induction cs as [|c0 cs IH]; intros acc Hrb c b; cbn.
  - rewrite elem_of_nil. split.
    + intros Hget. split; [right; by eauto | by apply Hrb].
    + intros [[[] | [b' Hget]] Hb]. rewrite Hget. f_equal.
      apply Hrb in Hget. congruence.
  - rewrite IH.
    2:{ destruct (balance s !! c0) as [b0|] eqn:Hb0; [| done].
        intros c' b'. destruct (decide (c0 = c')) as [<- |Hne].
        - rewrite dict_get_set_eq. congruence.
        - rewrite dict_get_set_ne by done. apply Hrb. }
    rewrite elem_of_cons. split.
    + intros [[Hin | Hsome] Hb]; (split; [| done]); [tauto |].
      destruct (balance s !! c0) as [b0|] eqn:Hb0; [| tauto].
      destruct (decide (c0 = c)) as [-> |Hne]; [tauto |].
      rewrite dict_get_set_ne in Hsome by done. tauto.
    + intros [[[-> | Hin] | Hsome] Hb]; (split; [| done]); [| tauto |].
      * right. rewrite Hb. rewrite dict_get_set_eq. by eauto.
      * right. destruct (balance s !! c0) as [b0|] eqn:Hb0; [| done].
        destruct (decide (c0 = c)) as [-> |Hne].
        -- rewrite dict_get_set_eq. by eauto.
        -- by rewrite dict_get_set_ne.
Qed.

(** X2: the view of a currency class lists exactly the currencies of the
    class the storage holds, each once, with its balance. *)
Theorem view_class (s : StorageAgent) (v : string) (cs : list string) :
  currency_dict s !! v = Some (CurrencyClass cs) →
  ∃ members,
    view s v = Ok members ∧
    NoDup (dict_keys members) ∧
    ∀ c b, dict_get members c = Some b ↔ c ∈ cs ∧ balance s !! c = Some b.
Proof.
  intros Hd. eexists. split; [unfold view; rewrite Hd; reflexivity |].
  split.
  - apply view_class_fold; [apply NoDup_nil_2 | done].
  - intros c b. rewrite view_class_fold_members by done. cbn.
    split; [intros [[? | [? ?]] ?]; done | tauto].
Qed.

Lemma view_class_witness :
  ∃ members,
    view water_tank "water" = Ok members ∧
    NoDup (dict_keys members) ∧
    ∀ c b, dict_get members c = Some b ↔
           c ∈ ["potable"; "grey"] ∧ balance water_tank !! c = Some b.
Proof. apply (view_class water_tank "water"). reflexivity. Defined.

Lemma decrement_loop_same (a : Q) ratios keys :
  ∀ s flow s' flow',
    decrement_loop s a ratios keys flow = Ok (s', flow') →
    same_but_balance s s'.
Proof.
  induction keys as [|k keys IH]; intros s flow s' flow'; cbn.
  - by intros [= <- _].
  - destruct (dict_get ratios k); [| done]. cbn.
    destruct (balance s !! k); [| done]. cbn.
    intros Hrun. by apply IH in Hrun.
Qed.

Lemma increment_same (s s' : StorageAgent) (v : string) (a : Q)
    (flow : list (string * Q)) :
  increment s v a = Ok (s', flow) → same_but_balance s s'.
Proof.
  unfold increment. destruct (Qltb 0 a).
  - destruct (currency_dict s !! v) as [[cls| |]|]; try done. cbn.
    destruct (capacity s !! v); [| done]. cbn.
    destruct (balance s !! v); [| done]. cbn. by intros [= <- _].
  - destruct (Qltb a 0); [| by intros [= <- _]].
    destruct (view s v); [| done]. cbn.
    destruct (Qle_bool _ 0); [by intros [= <- _] |].
    destruct (ratios_of _ _ _); [| done]. cbn. apply decrement_loop_same.
Qed.

(** X3: whatever the view and the amount, [increment] touches nothing but
    balances: the amount, the capacities and the currency catalogue are
    kept, a currency absent from the returned map keeps its balance, and no
    balance is created or removed. *)
Theorem increment_frame (s s' : StorageAgent) (v : string) (a : Q)
    (flow : list (string * Q)) :
  increment s v a = Ok (s', flow) →
  amount s' = amount s ∧ capacity s' = capacity s ∧
  currency_dict s' = currency_dict s ∧
  (∀ c, c ∉ dict_keys flow → balance s' !! c = balance s !! c) ∧
  (∀ c, is_Some (balance s' !! c) ↔ is_Some (balance s !! c)).
Proof.
  intros Hinc. destruct (Qlt_le_dec 0 a) as [Hpos|Hle].
  - unfold increment in Hinc. apply Qltb_lt in Hpos. rewrite Hpos in Hinc.
    destruct (currency_dict s !! v) as [[cls| |]|]; try done. cbn in Hinc.
    destruct (capacity s !! v) as [cap|]; [| done]. cbn in Hinc.
    destruct (balance s !! v) as [bal|] eqn:Hbal; [| done]. cbn in Hinc.
    injection Hinc as <- <-. cbn. do 3 (split; [done |]). split.
    + intros c Hc. apply not_elem_of_cons in Hc as [Hne _].
      by rewrite lookup_insert_ne.
    + intros c. destruct (decide (v = c)) as [<- |Hne].
      * rewrite lookup_insert_eq, Hbal. split; by eauto.
      * by rewrite lookup_insert_ne.
  - destruct (Qlt_le_dec a 0) as [Hneg|Hge].
    + destruct (view s v) as [members|e] eqn:Hview.
      2:{ unfold increment in Hinc. apply Qltb_ge in Hle. apply Qltb_lt in Hneg.
          rewrite Hle, Hneg, Hview in Hinc. done. }
      destruct (increment_negative_branch s v a members Hneg Hview)
        as [Hzero Hsplit].
      destruct (Qlt_le_dec 0 (Qsum (dict_values members))) as [Htot|Htot].
      * destruct (Hsplit Htot) as (s1 & flow1 & Hinc1 & Ham & Hcp & Hkeys & Hin & Hout).
        assert (s1 = s' ∧ flow1 = flow) as [-> ->] by (split; congruence).
        split; [done |]. split; [done |]. split.
        { unfold increment in Hinc. apply Qltb_ge in Hle. apply Qltb_lt in Hneg.
          rewrite Hle, Hneg, Hview in Hinc. cbn in Hinc.
          destruct (Qle_bool _ 0); [by injection Hinc as <- _ |].
          destruct (ratios_of _ _ _) as [ratios|]; [| done]. cbn in Hinc.
          apply decrement_loop_same in Hinc. apply Hinc. }
        split.
        -- intros c Hc. rewrite Hkeys in Hc. apply dict_get_keys in Hc.
           by apply Hout.
        -- intros c. destruct (dict_get members c) as [b|] eqn:Hget.
           ++ destruct (Hin c b Hget) as [-> _].
              apply (view_members s v members Hview) in Hget. rewrite Hget.
              split; by eauto.
           ++ by rewrite (Hout c Hget).
      * rewrite (Hzero Htot) in Hinc. injection Hinc as <- <-. done.
    + unfold increment in Hinc. apply Qltb_ge in Hle, Hge.
      rewrite Hle, Hge in Hinc. by injection Hinc as <- <-.
Qed.

Lemma increment_frame_witness :
  ∃ s' flow,
    increment water_tank "water" (-20) = Ok (s', flow) ∧
    amount s' = amount water_tank ∧ capacity s' = capacity water_tank.
Proof.
  destruct (increment water_tank "water" (-20)) as [[s' flow]|] eqn:Hinc;
    [| vm_compute in Hinc; discriminate].
  exists s', flow. split; [reflexivity |].
  destruct (increment_frame water_tank s' "water" (-20) flow Hinc)
    as (Ham & Hcap & _).
  split; assumption.
Defined.

(** X4: a positive increment is accepted for a currency only: on a currency
    class, or on an entry of unknown type, it raises [ValueError], and on a
    name the storage does not know [KeyError]. *)
Theorem increment_positive_refused (s : StorageAgent) (v : string) (a : Q) :
  0 < a →
  match currency_dict s !! v with
  | Some (Currency _) => True
  | Some _ => increment s v a = Raise ValueError
  | None => increment s v a = Raise KeyError
  end.
Proof.
  intros Ha. apply Qltb_lt in Ha. unfold increment. rewrite Ha.
  by destruct (currency_dict s !! v) as [[| |]|].
Qed.

Lemma increment_positive_refused_witness :
  increment water_tank "water" 5 = Raise ValueError.
Proof.
  apply (increment_positive_refused water_tank "water" 5). reflexivity.
Defined.

(** * What a step leaves alone *)

Section Frame.
Context `{Externals}.
Variable self : string.
Variable ok : string → GeneralAgent → GeneralAgent → Prop.

(** [ok] is a preorder that admits every assignment the engine makes to an
    agent. *)
Hypothesis ok_refl : ∀ id a, ok id a a.
Hypothesis ok_trans : ∀ id a b c, ok id a b → ok id b c → ok id a c.
Hypothesis ok_age : ∀ id a x, ok id a (with_age a x).
Hypothesis ok_buffer : ∀ id a b, ok id a (with_buffer a b).
Hypothesis ok_deprive : ∀ id a d, ok id a (with_deprive a d).
Hypothesis ok_events : ∀ id a ev mu, ok id a (with_events a ev mu).
Hypothesis ok_step_variable : ∀ id a x, ok id a (with_step_variable a x).
Hypothesis ok_missing_desired : ∀ id a b, ok id a (with_missing_desired a b).
Hypothesis ok_exchange_buffer :
  ∀ id a d buf, ok id a (with_exchange_buffer a d buf).
Hypothesis ok_destroyed :
  ∀ id a reason, ok id a (with_storage a (mark_destroyed (storage a) reason)).
Hypothesis ok_fewer :
  ∀ a n, (n <= amount (storage a))%Z →
         ok self a (with_storage a (set_amount (storage a) n)).
Hypothesis ok_increment :
  ∀ id a v x s' flow,
    increment (storage a) v x = Ok (s', flow) → ok id a (with_storage a s').

Lemma evolves_refl (m : Model rng) : evolves ok m m.
Proof. intros id. by destruct (agents m !! id). Qed.

Lemma evolves_trans (m1 m2 m3 : Model rng) :
  evolves ok m1 m2 → evolves ok m2 m3 → evolves ok m1 m3.
Proof.
  intros H12 H23 id. specialize (H12 id). specialize (H23 id).
  destruct (agents m1 !! id), (agents m2 !! id), (agents m3 !! id);
    try done. by eapply ok_trans.
Qed.

Lemma evolves_agents (m m' : Model rng) :
  agents m' = agents m → evolves ok m m'.
Proof. intros Hags id. rewrite Hags. by destruct (agents m !! id). Qed.

Lemma evolves_set (id : string) (a a' : GeneralAgent) (m : Model rng) :
  agents m !! id = Some a → ok id a a' →
  evolves ok m (with_agents m (<[id := a']> (agents m))).
Proof.
  intros Ha Hok id'. cbn. destruct (decide (id = id')) as [<- |Hne].
  - by rewrite lookup_insert_eq, Ha.
  - rewrite lookup_insert_ne by done. by destruct (agents m !! id').
Qed.

Lemma within_ret {A} (x : A) : within ok (ret x).
Proof. intros m y m' [= _ <-]. apply evolves_refl. Qed.

Lemma within_mret {A} (x : A) : within ok (mret x : M A).
Proof. apply within_ret. Qed.

Lemma within_raise {A} (e : error) : within ok (raise e : M A).
Proof. by intros m y m'. Qed.

Lemma within_lift {A} (r : result A) : within ok (lift r).
Proof.
  intros m y m'. unfold lift. destruct r; [| done].
  intros [= _ <-]. apply evolves_refl.
Qed.

Lemma within_read {A} (f : Model rng → A) : within ok (read f).
Proof. intros m y m' [= _ <-]. apply evolves_refl. Qed.

Lemma within_write (f : Model rng → Model rng) :
  (∀ m, agents (f m) = agents m) → within ok (write f).
Proof. intros Hf m y m' [= _ <-]. by apply evolves_agents. Qed.

Lemma within_get_agent (id : string) : within ok (get_agent id).
Proof.
  intros m y m'. unfold get_agent. destruct (agents m !! id); [| done].
  intros [= _ <-]. apply evolves_refl.
Qed.

Lemma within_bind {A B} (c : M A) (k : A → M B) :
  within ok c → (∀ x, within ok (k x)) → within ok (c ≫= k).
Proof.
  intros Hc Hk m y m'. unfold mbind, M_bind, bind.
  destruct (c m) as [[x m1]|] eqn:Hrun; [| done].
  intros Hrun'. eapply evolves_trans; [by eapply Hc | by eapply Hk].
Qed.

Lemma within_modify_agent (id : string) (f : GeneralAgent → GeneralAgent) :
  (∀ a, ok id a (f a)) → within ok (modify_agent id f).
Proof.
  intros Hf m y m'. unfold modify_agent, set_agent, get_agent, write.
  unfold mbind, M_bind, bind.
  destruct (agents m !! id) as [a|] eqn:Ha; [| done].
  intros [= _ <-]. by apply evolves_set with a.
Qed.

Lemma within_for_each {A} (xs : list A) (body : A → M control) :
  (∀ x, within ok (body x)) → within ok (for_each xs body).
Proof.
  intros Hbody. induction xs as [|x xs IH]; cbn.
  - apply within_ret.
  - apply within_bind; [apply Hbody |].
    intros [|]; [apply IH | apply within_ret].
Qed.

Lemma within_for_each_acc {A S} (xs : list A) (s : S)
    (body : A → S → M (control * S)) :
  (∀ x s, within ok (body x s)) → within ok (for_each_acc xs s body).
Proof.
  intros Hbody. revert s. induction xs as [|x xs IH]; intros s; cbn.
  - apply within_ret.
  - apply within_bind; [apply Hbody |].
    intros [[|] s']; [apply IH | apply within_ret].
Qed.

Lemma within_kill (id reason : string) : within ok (kill id reason).
Proof.
  unfold kill. apply within_bind.
  - apply within_modify_agent. intros a. apply ok_destroyed.
  - intros _. by apply within_write.
Qed.

Lemma within_from_any {A} (id : string) (a : GeneralAgent) (c : M A) :
  within ok c → within_from ok id a c.
Proof. intros Hc m x m' _. apply Hc. Qed.

Lemma within_from_get {A} (id : string) (k : GeneralAgent → M A) :
  (∀ a, within_from ok id a (k a)) → within ok (get_agent id ≫= k).
Proof.
  intros Hk m x m'. unfold mbind, M_bind, bind, get_agent.
  destruct (agents m !! id) as [a|] eqn:Ha; [| done]. by apply Hk.
Qed.

Lemma within_from_lift {A B} (id : string) (a : GeneralAgent)
    (r : result A) (k : A → M B) :
  (∀ x, r = Ok x → within_from ok id a (k x)) →
  within_from ok id a (lift r ≫= k).
Proof.
  intros Hk m x m' Ha. unfold mbind, M_bind, bind, lift.
  destruct r as [y|]; [| done]. by apply Hk.
Qed.

Lemma within_from_bind {A B} (id : string) (a : GeneralAgent)
    (c : M A) (k : A → M B) :
  within_from ok id a c → (∀ x, within ok (k x)) →
  within_from ok id a (c ≫= k).
Proof.
  intros Hc Hk m y m' Ha. unfold mbind, M_bind, bind.
  destruct (c m) as [[x m1]|] eqn:Hrun; [| done].
  intros Hrun'. eapply evolves_trans; [by eapply Hc | by eapply Hk].
Qed.

Lemma within_from_set (id : string) (a a' : GeneralAgent) :
  ok id a a' → within_from ok id a (set_agent id a').
Proof. intros Hok m y m' Ha [= _ <-]. by apply evolves_set with a. Qed.

Ltac within_step :=
  match goal with
  | |- within_from _ _ _ (lift _ ≫= _) => apply within_from_lift; intros ? ?
  | |- within_from _ _ _ (set_agent _ _) => apply within_from_set
  | |- within_from _ _ _ (_ ≫= _) => apply within_from_bind; [| intros ?]
  | |- within_from _ _ _ (if ?b then _ else _) => destruct b eqn:?
  | |- within_from _ _ _ (match ?x with _ => _ end) => destruct x eqn:?
  | |- within_from _ _ _ (let '(_, _) := ?x in _) => destruct x eqn:?
  | |- within_from _ _ _ _ => apply within_from_any
  | |- within _ (get_agent ?id ≫= _) => apply within_from_get; intros ?
  | |- within _ (mret _) => apply within_mret
  | |- within _ (ret _) => apply within_ret
  | |- within _ (raise _) => apply within_raise
  | |- within _ (lift _) => apply within_lift
  | |- within _ (read _) => apply within_read
  | |- within _ (get_agent _) => apply within_get_agent
  | |- within _ (kill _ _) => apply within_kill
  | |- within _ (modify_agent _ _) => apply within_modify_agent; intros ?
  | |- within _ (write _) => apply within_write; done
  | |- within _ (for_each _ _) => apply within_for_each; intros ?
  | |- within _ (for_each_acc _ _ _) => apply within_for_each_acc; intros ? ?
  | |- within _ (_ ≫= _) => apply within_bind; [| intros ?]
  | |- within _ (if ?b then _ else _) => destruct b eqn:?
  | |- within _ (match ?x with _ => _ end) => destruct x eqn:?
  | |- within _ (let '(_, _) := ?x in _) => destruct x eqn:?
  end.

Ltac within_all := repeat within_step; eauto.

Lemma within_draw : within ok draw.
Proof.
  intros m y m'. unfold draw. destruct (rand (random_state m)).
  intros [= _ <-]. by apply evolves_agents.
Qed.

Lemma within_draw_variable (v : variation) : within ok (draw_variable v).
Proof.
  intros m y m'. unfold draw_variable.
  destruct (get_variable (random_state m) v).
  intros [= _ <-]. by apply evolves_agents.
Qed.

Lemma within_storage_step (id : string) : within ok (storage_step id).
Proof. unfold storage_step, calculate_storage_ratios. within_all. Qed.

Lemma within_get_storage_ratio (id cr_name : string) :
  within ok (get_storage_ratio id cr_name).
Proof.
  intros m y m' Hrun. rewrite (get_storage_ratio_reads _ _ _ _ _ Hrun).
  apply evolves_refl.
Qed.

Lemma within_get_step_value (id attr : string) (step_num : Z) :
  within ok (get_step_value id attr step_num).
Proof.
  unfold get_step_value, criteria_source. within_all.
  all: try apply within_get_storage_ratio.
  all: intros m y m'; unfold curve_lookup;
    destruct (step_values _ !! attr); [| done];
    destruct (lookup_step_value _ _ _); [| done];
    intros [= _ <-]; apply evolves_refl.
Qed.

Lemma within_increment_storage (id currency : string) (x : Q) :
  within ok (increment_storage id currency x).
Proof. unfold increment_storage. within_all. Qed.

Lemma within_check_required (detail : attr_detail) (has_deficit : bool) :
  within ok (check_required self detail has_deficit).
Proof. unfold check_required. within_all. Qed.

Lemma within_update_deprive (attr currency : string) (detail : attr_detail)
    (has_deficit : bool) (available_value actual_value step_mag : Q) :
  within ok
    (update_deprive self attr detail currency has_deficit
       available_value actual_value step_mag).
Proof.
  unfold update_deprive. repeat within_step.
  - eapply ok_trans; [apply ok_deprive |].
    apply (ok_fewer (with_deprive a _)). cbn. lia.
  - apply ok_deprive.
Qed.

Lemma within_update_deficit (attr currency : string) (detail : attr_detail)
    (prefix : flow_direction) (available_value target_value step_mag : Q) :
  within ok
    (update_deficit self attr detail prefix currency
       available_value target_value step_mag).
Proof.
  unfold update_deficit. apply within_bind; [apply within_check_required |].
  intros [|]; [apply within_update_deprive | apply within_ret].
Qed.

Lemma within_available (storages : list string) (currency : string)
    (total : Q) (conns : list connection) :
  within ok (available storages currency total conns).
Proof.
  revert total conns. induction storages as [|s rest IH]; intros; cbn;
    within_all.
Qed.

Lemma within_exchange_loop (id : string) (prefix : flow_direction)
    (currency : string) (actual_value value_eps : Q) (n : nat)
    (conns : list connection) (remaining : Q) (influx : list string) :
  within ok
    (exchange_loop id prefix currency actual_value value_eps n conns
       remaining influx).
Proof.
  revert remaining influx.
  induction conns as [|conn rest IH]; intros; cbn; [apply within_ret |].
  apply within_bind; [apply within_increment_storage |]. intros flow.
  destruct (Qltb actual_value value_eps); [apply IH |]. within_all.
Qed.

Lemma within_new_instance (detail : attr_detail) :
  within ok (new_instance detail).
Proof. unfold new_instance. within_all; apply within_draw_variable. Qed.

Lemma within_roll_instances (n : nat) (id : string) (attr_value : attr_value)
    (detail : attr_detail) (event_type : string)
    (instances : list event_instance) :
  within ok (roll_instances n id attr_value detail event_type instances).
Proof.
  revert instances. induction n as [|n IH]; intros; cbn; [apply within_ret |].
  apply within_bind; [apply within_draw |]. intros v.
  within_all. apply within_new_instance.
Qed.

Lemma within_process_event (id attr : string) (attr_value : attr_value) :
  within ok (process_event id attr attr_value).
Proof.
  unfold process_event.
  apply within_bind; [apply within_lift |]. intros event_type.
  apply within_bind; [apply within_get_agent |]. intros a.
  apply within_bind; [apply within_lift |]. intros detail.
  apply within_bind; [apply within_lift |]. intros aged.
  apply within_bind; [apply within_roll_instances |]. intros instances.
  within_all.
Qed.

Lemma within_check_threshold (id attr : string) (attr_value : attr_value) :
  within ok (check_threshold id attr attr_value).
Proof. unfold check_threshold. within_all. Qed.

(** What is assumed of the functions of [custom_funcs]. *)
Hypothesis custom_funcs_within :
  ∀ name f m m',
    custom_funcs name = Some f → f self m = Ok m' → evolves ok m m'.

Lemma within_run_custom_function (attr : string) (attr_value : attr_value) :
  within ok (run_custom_function self attr attr_value).
Proof.
  unfold run_custom_function.
  destruct (String.eqb attr "char_custom_function"); [| apply within_ret].
  destruct attr_value as [|name]; [apply within_raise |].
  destruct (custom_funcs name) as [f|] eqn:Hf; [| apply within_raise].
  intros m y m'. destruct (f self m) as [m1|] eqn:Hrun; [| done].
  intros [= _ <-]. by eapply custom_funcs_within.
Qed.

Lemma within_attr_body (item : string * attr_value) :
  within ok (attr_body self item).
Proof.
  unfold attr_body. destruct item as [attr attr_value].
  apply within_bind; [apply within_check_threshold |].
  intros [|]; [| apply within_ret].
  apply within_bind; [apply within_run_custom_function |]. intros _.
  within_all. apply within_process_event.
Qed.

Lemma within_flow_body (value_eps : Q) (prefix : flow_direction)
    (item : string * list string) (influx : list string) :
  within ok (flow_body self value_eps prefix item influx).
Proof.
  unfold flow_body, process_exchange. destruct item as [currency storages].
  within_all.
  all: first [ apply within_get_step_value | apply within_available
             | apply within_update_deficit | apply within_exchange_loop ].
Qed.

Lemma within_flows (value_eps : Q) : within ok (flows self value_eps).
Proof. unfold flows. within_all. apply within_flow_body. Qed.

Lemma within_step (value_eps : Q) : within ok (step self value_eps).
Proof.
  unfold step. within_all.
  all: first [ apply within_storage_step | apply within_attr_body
             | apply within_draw_variable | apply within_flows
             | eapply ok_trans; apply ok_exchange_buffer ].
Qed.
End Frame.

Section Guarantees.
Context `{Externals}.
Variable self : string.

(** X7: a step of an agent never adds instances to any agent, and changes
    the amount of no agent but itself. *)
Theorem step_never_adds_instances (value_eps : Q) (m m' : Model rng) :
  (∀ name f m m',
     custom_funcs name = Some f → f self m = Ok m' →
     evolves (fewer_or_same self) m m') →
  step self value_eps m = Ok (tt, m') →
  evolves (fewer_or_same self) m m'.
Proof.
  intros Hcustom. apply (within_step self (fewer_or_same self));
    [.. | exact Hcustom].
  all: first
    [ by intros; split; cbn; [lia | done]
    | intros id a b c [Hab Hab'] [Hbc Hbc']; split; [lia |];
      intros Hne; by rewrite Hbc', Hab'
    | intros id a v x s' flow Hinc; apply increment_same in Hinc;
      destruct Hinc as (_ & Ham & _); split; cbn; [lia | done] ].
Qed.

(** X8: a step of an agent keeps, for every other agent, the bounds
    [0 <= balance <= capacity * amount] on its balances. *)
Theorem step_keeps_bounds (value_eps : Q) (m m' : Model rng) :
  (∀ name f m m',
     custom_funcs name = Some f → f self m = Ok m' →
     evolves (keeps_bounds self) m m') →
  step self value_eps m = Ok (tt, m') →
  evolves (keeps_bounds self) m m'.
Proof.
  intros Hcustom. apply (within_step self (keeps_bounds self));
    [.. | exact Hcustom].
  all: first
    [ by intros; intros ? ?
    | intros id a b c Hab Hbc Hne Ha; by apply Hbc, Hab
    | intros id a v x s' flow Hinc Hne Ha; cbn; by eapply increment_bounded ].
Qed.

(** X9: a step changes the configuration of no agent: type, attributes and
    their details, currencies, capacities, connections and step values. *)
Theorem step_keeps_configuration (value_eps : Q) (m m' : Model rng) :
  (∀ name f m m',
     custom_funcs name = Some f → f self m = Ok m' →
     evolves same_configuration m m') →
  step self value_eps m = Ok (tt, m') →
  evolves same_configuration m m'.
Proof.
  intros Hcustom. apply (within_step self same_configuration);
    [.. | exact Hcustom].
  all: first
    [ by intros; repeat split
    | intros id a b c Hab Hbc; unfold same_configuration in *;
      destruct Hab as (<- & <- & <- & <- & <- & <- & <- & <-); exact Hbc
    | intros id a d buf; by destruct d
    | intros id a v x s' flow Hinc; apply increment_same in Hinc;
      destruct Hinc as (? & _ & _ & _ & ? & ? & ? & _ & ?); by repeat split ].
Qed.

(** X10: a step revives no agent: whoever was destroyed before the step is
    destroyed after it. *)
Theorem step_never_revives (value_eps : Q) (m m' : Model rng) :
  (∀ name f m m',
     custom_funcs name = Some f → f self m = Ok m' →
     evolves stays_destroyed m m') →
  step self value_eps m = Ok (tt, m') →
  evolves stays_destroyed m m'.
Proof.
  intros Hcustom. apply (within_step self stays_destroyed);
    [.. | exact Hcustom].
  all: first
    [ by intros; intros ?
    | intros id a b c Hab Hbc Ha; by apply Hbc, Hab
    | intros id a v x s' flow Hinc Ha; cbn; apply increment_same in Hinc;
      destruct Hinc as (_ & _ & -> & _); done ].
Qed.
End Guarantees.

Lemma sample_custom_funcs (ok : string → GeneralAgent → GeneralAgent → Prop)
    (self : string) :
  ∀ name f (m m' : Model (list Q)),
    custom_funcs (Externals := sample_externals) name = Some f →
    f self m = Ok m' → evolves ok m m'.
Proof. intros name f m m' Hf. discriminate Hf. Qed.

Lemma step_never_adds_instances_witness :
  evolves (fewer_or_same "crew") (cabin (3 # 2))
    (after_step (H := sample_externals) "crew" (cabin (3 # 2))).
Proof.
  apply (step_never_adds_instances (H := sample_externals) "crew"
           value_eps_default).
  - apply sample_custom_funcs.
  - vm_compute. reflexivity.
Defined.

Lemma step_keeps_bounds_witness :
  evolves (keeps_bounds "o2_maker") two_tanks
    (after_step (H := sample_externals) "o2_maker" two_tanks).
Proof.
  apply (step_keeps_bounds (H := sample_externals) "o2_maker"
           value_eps_default).
  - apply sample_custom_funcs.
  - vm_compute. reflexivity.
Defined.

Lemma step_keeps_configuration_witness :
  evolves same_configuration two_tanks
    (after_step (H := sample_externals) "o2_maker" two_tanks).
Proof.
  apply (step_keeps_configuration (H := sample_externals) "o2_maker"
           value_eps_default).
  - apply sample_custom_funcs.
  - vm_compute. reflexivity.
Defined.

Lemma step_never_revives_witness :
  evolves stays_destroyed (breather_cabin 50 (5 # 100))
    (after_step (H := sample_externals) "breather" (breather_cabin 50 (5 # 100))).
Proof.
  apply (step_never_revives (H := sample_externals) "breather"
           value_eps_default).
  - apply sample_custom_funcs.
  - vm_compute. reflexivity.
Defined.

(** * Further properties of the exchange engine *)

Lemma process_event_total_witness :
  ∃ m',
    process_event (H := sample_externals) "patients" "event_illness"
      (VStr "multiplier") (sick_bay [] [1 # 4; 3 # 4; 1 # 10]) = Ok (tt, m').
Proof.
  apply (process_event_total (H := sample_externals) "patients"
           "event_illness" "illness" (VStr "multiplier") illness_detail
           (sick_bay [] [1 # 4; 3 # 4; 1 # 10]) (patients []));
    [reflexivity | reflexivity | reflexivity | left; by eexists |].
  intros [x Hx]. discriminate Hx.
Defined.

Section Lookup.
Context `{Externals}.

(** X13: computing a step value changes nothing in the store but the
    [buffer] of agents: balances, amounts, ages, budgets and events are as
    before, whether the criteria gate suppresses the flow or not. *)
Theorem get_step_value_frame (self attr : string) (step_num : Z)
    (m m' : Model rng) (v : Q) :
  get_step_value self attr step_num m = Ok (v, m') →
  evolves same_but_buffer m m'.
Proof.
  apply (within_get_step_value same_but_buffer).
  - intros id a. by destruct a.
  - intros id a b c -> ->. done.
  - intros id a b. done.
Qed.

End Lookup.

Lemma get_step_value_frame_witness :
  evolves same_but_buffer (vent_model 50 2)
    (snd (match get_step_value (H := sample_externals) "vent" "out_o2" 0
                  (vent_model 50 2) with
          | Ok r => r
          | Raise _ => (0, vent_model 50 2)
          end)).
Proof.
  apply (get_step_value_frame (H := sample_externals) "vent" "out_o2" 0
           (vent_model 50 2) _ 0).
  vm_compute. reflexivity.
Defined.





Section Threshold.
Context `{Externals}.

Lemma for_each_outcome {A} (Q : Model rng → Prop) (xs : list A)
    (body : A → M control) :
  (∀ x m c m', body x m = Ok (c, m') →
               match c with Next => m' = m | Return => Q m' end) →
  ∀ m c m', for_each xs body m = Ok (c, m') →
            match c with Next => m' = m | Return => Q m' end.
Proof.
  intros Hbody. induction xs as [|x xs IH]; intros m c m'; cbn.
  - by intros [= <- <-].
  - unfold mbind, M_bind, bind.
    destruct (body x m) as [[[|] m1]|] eqn:Hrun; [| | done].
    + apply Hbody in Hrun. subst m1. apply IH.
    + apply Hbody in Hrun. by intros [= <- <-].
Qed.

Lemma kill_destroys (self reason : string) (m m' : Model rng) y :
  kill self reason m = Ok (y, m') → destroyed m' self.
Proof.
  unfold kill. unfold_M.
  destruct (agents m !! self) as [a|] eqn:Ha; [| done]. cbn.
  intros [= _ <-]. split.
  - eexists. cbn. rewrite lookup_insert_eq. split; [reflexivity |].
    cbn. by eauto.
  - cbn. rewrite list_elem_of_In, filter_In. intros [_ Hne].
    by rewrite String.eqb_refl in Hne.
Qed.

(** X16: the threshold check of an attribute either changes nothing and
    lets the step go on, or destroys the agent (inactive, cause of death
    set, removed from the scheduler) and ends the step. *)
Theorem threshold_check_outcome (self attr : string) (attr_value : attr_value)
    (m m' : Model rng) (c : control) :
  check_threshold self attr attr_value m = Ok (c, m') →
  match c with
  | Next => m' = m
  | Return => destroyed m' self
  end.
Proof.
  unfold check_threshold.
  destruct (startswith attr "char_threshold_"); [| by intros [= <- <-]].
  destruct (rev (split_all attr)) as [|currency [|threshold_type rest]];
    try done.
  apply (for_each_outcome (fun m => destroyed m self)).
  clear m m' c. intros prefix m c m'.
  unfold mbind at 1. unfold M_bind, bind, get_agent.
  destruct (agents m !! self) as [a|]; [| done].
  destruct (dict_get (selected_storage a prefix) currency) as [conns|];
    [| by intros [= <- <-]].
  apply (for_each_outcome (fun m => destroyed m self)).
  clear m m' c. intros storage_agent m c m'.
  unfold_M.
  destruct (agents m !! storage_agent) as [st|]; [| done]. cbn.
  destruct (storage_ratios m !! _) as [entry|]; [| done]. cbn.
  destruct (entry !! _) as [ratio|]; [| done]. cbn.
  destruct attr_value as [bound|]; [| done]. cbn.
  destruct (threshold_test threshold_type ratio bound) as [[|]|]; [| | done].
  - destruct (agents m !! self) as [a'|] eqn:Ha'; [| done]. cbn.
    destruct (kill self _ m) as [[[] m1]|] eqn:Hkill; [| done].
    apply kill_destroys in Hkill. by intros [= <- <-].
  - by intros [= <- <-].
Qed.
End Threshold.

Lemma threshold_check_outcome_witness :
  destroyed
    (snd (match check_threshold (H := sample_externals) "breather"
                  "char_threshold_lower_o2" (VNum (8 # 100))
                  (breather_cabin 50 (5 # 100)) with
          | Ok r => r
          | Raise _ => (Next, breather_cabin 50 (5 # 100))
          end)) "breather".
Proof.
  apply (threshold_check_outcome (H := sample_externals) "breather"
           "char_threshold_lower_o2" (VNum (8 # 100))
           (breather_cabin 50 (5 # 100)) _ Return).
  vm_compute. reflexivity.
Defined.
